(** * Flam-Frontend: the collaborative canvas, its rooms and its operation log

  A shallow embedding of
    - [server/rooms.js]         (room registry and presence table),
    - [server/drawing-state.js] (operation log, ids and global undo),
    - [server/server.js]        (the socket handlers),
    - [src/utils/canvasOperations.js] (Douglas-Peucker path simplification),
  followed by the properties of the synchronization engine. *)

From Stdlib Require Import ZArith List Bool Lia Sorted.
From Stdlib Require Import Floats.PrimFloat.
From stdpp Require Import gmap strings list pretty.
Import ListNotations.

Set Warnings "-inexact-float,-clear-no-such-hyp".

(* ===================================================================== *)
(** * Definitions *)
(* ===================================================================== *)

(** ** Data model

  JS numbers that hold coordinates and widths are binary64 floats; the ones
  that only count (the operation id counter, the palette index) or hold
  [Date.now()] are integers, exact in JS below 2^53. *)

Record Point := mkPoint { x : float; y : float }.

(** The object built by [addUserToRoom]. *)
Record User := mkUser {
  userId : string;
  username : string;
  color : string;
  joinedAt : Z
}.

(** The object stored by [updateCursor]. *)
Record Cursor := mkCursor {
  cursor_x : float;
  cursor_y : float;
  lastUpdate : Z
}.

(** The second argument the [draw_end] handler builds for [addOperation]:
    exactly the keys [points], [color], [width] and [tool]. *)
Record OperationData := mkOperationData {
  data_points : list Point;
  data_color : string;
  data_width : float;
  data_tool : string
}.

(** The object built by [addOperation]: [id], [userId], [timestamp], [type]
    and the spread of the operation data. *)
Record Operation := mkOperation {
  id : Z;
  op_userId : string;
  timestamp : Z;
  type : string;
  points : list Point;
  op_color : string;
  width : float;
  tool : string
}.

(** *** A JS [Map] with string keys that is iterated

  [Map] iterates in insertion order and [set] on a present key keeps its
  place, so the [users] table, which [getRoomUsers] lists, is an association
  list.  A real [Map] holds a key once; [map_delete] drops every entry of the
  key, so the functions are total on all lists. *)

Definition jsmap (V : Type) : Type := list (string * V).

Fixpoint map_get {V : Type} (k : string) (m : jsmap V) : option V :=
  match m with
  | [] => None
  | (k', v) :: m' => if decide (k' = k) then Some v else map_get k m'
  end.

Fixpoint map_set {V : Type} (k : string) (v : V) (m : jsmap V) : jsmap V :=
  match m with
  | [] => [(k, v)]
  | (k', v') :: m' =>
      if decide (k' = k) then (k, v) :: m' else (k', v') :: map_set k v m'
  end.

Fixpoint map_delete {V : Type} (k : string) (m : jsmap V) : jsmap V :=
  match m with
  | [] => []
  | (k', v') :: m' =>
      if decide (k' = k) then map_delete k m' else (k', v') :: map_delete k m'
  end.

Definition map_size {V : Type} (m : jsmap V) : nat := length m.

(** [Array.from(m.values())] *)
Definition map_values {V : Type} (m : jsmap V) : list V := map snd m.

(** The room object of [getRoom].  [cursors] is only ever read and written
    by key. *)
Record Room := mkRoom {
  users : jsmap User;
  operations : list Operation;
  cursors : gmap string Cursor
}.

(** The module-level variables of the authority: [rooms] and [colorIndex] of
    [rooms.js], [operationIdCounter] of [drawing-state.js]. *)
Record Store := mkStore {
  rooms : gmap string Room;
  colorIndex : nat;
  operationIdCounter : Z
}.

Definition initial_store : Store := mkStore ∅ 0 0.

Definition set_rooms (st : Store) (rs : gmap string Room) : Store :=
  mkStore rs (colorIndex st) (operationIdCounter st).

(** ** [server/rooms.js] *)

Module Rooms.

Definition USER_COLORS : list string :=
  [ "#FF6B6B"; "#4ECDC4"; "#45B7D1"; "#FFA07A"; "#98D8C8";
    "#F7DC6F"; "#BB8FCE"; "#85C1E2"; "#F8B739"; "#52B788";
    "#FF8FA3"; "#6C5CE7"; "#00B894"; "#FDCB6E"; "#E17055" ]%string.

Definition new_room : Room := mkRoom [] [] ∅.

(** [getRoom(roomId)]: get or create.  The caller receives a reference to the
    registry's object; callers that mutate it write it back with
    [put_room]. *)
Definition getRoom (roomId : string) (st : Store) : Room * Store :=
  match rooms st !! roomId with
  | Some room => (room, st)
  | None => (new_room, set_rooms st (<[roomId := new_room]> (rooms st)))
  end.

Definition put_room (roomId : string) (room : Room) (st : Store) : Store :=
  set_rooms st (<[roomId := room]> (rooms st)).

(** [username || `User${room.users.size + 1}`]: [undefined] and the empty
    string are falsy. *)
Definition username_or_default (given : option string) (room : Room) : string :=
  match given with
  | Some name => if decide (name = ""%string) then
                   ("User" +:+ pretty (map_size (users room) + 1))%string
                 else name
  | None => ("User" +:+ pretty (map_size (users room) + 1))%string
  end.

(** [addUserToRoom(roomId, socketId, username)]; [now] is what [Date.now()]
    returns. *)
Definition addUserToRoom (roomId socketId : string) (given : option string)
    (now : Z) (st : Store) : User * Store :=
  let '(room, st1) := getRoom roomId st in
  let color :=
    nth (colorIndex st1 mod length USER_COLORS) USER_COLORS ""%string in
  let user := mkUser socketId (username_or_default given room) color now in
  let room' := mkRoom (map_set socketId user (users room))
                      (operations room) (cursors room) in
  (user,
   mkStore (<[roomId := room']> (rooms st1)) (colorIndex st1 + 1)
           (operationIdCounter st1)).

(** [removeUserFromRoom(roomId, socketId)].  [None] stands for both [null]
    (no such room) and [undefined] (the socket was not in the room). *)
Definition removeUserFromRoom (roomId socketId : string) (st : Store)
    : option User * Store :=
  match rooms st !! roomId with
  | None => (None, st)
  | Some room =>
      let user := map_get socketId (users room) in
      let room' := mkRoom (map_delete socketId (users room))
                          (operations room)
                          (delete socketId (cursors room)) in
      if (map_size (users room') =? 0)%nat
      then (user, set_rooms st (delete roomId (rooms st)))
      else (user, put_room roomId room' st)
  end.

(** [getRoomUsers(roomId)] *)
Definition getRoomUsers (roomId : string) (st : Store) : list User :=
  match rooms st !! roomId with
  | None => []
  | Some room => map_values (users room)
  end.

(** [getUser(roomId, socketId)] *)
Definition getUser (roomId socketId : string) (st : Store) : option User :=
  match rooms st !! roomId with
  | None => None
  | Some room => map_get socketId (users room)
  end.

(** [updateCursor(roomId, socketId, x, y)] *)
Definition updateCursor (roomId socketId : string) (cx cy : float) (now : Z)
    (st : Store) : Store :=
  match rooms st !! roomId with
  | None => st
  | Some room =>
      put_room roomId
        (mkRoom (users room) (operations room)
                (<[socketId := mkCursor cx cy now]> (cursors room))) st
  end.

End Rooms.

(** ** [server/drawing-state.js] *)

Module DrawingState.
Import Rooms.

(** [addOperation(roomId, userId, operationData)]; [now] is what
    [Date.now()] returns.  [++operationIdCounter] increments the module's
    counter and yields the new value. *)
Definition addOperation (roomId userId : string) (operationData : OperationData)
    (now : Z) (st : Store) : Operation * Store :=
  let '(room, st1) := getRoom roomId st in
  let counter := (operationIdCounter st1 + 1)%Z in
  let operation :=
    mkOperation counter userId now "draw"
      (data_points operationData) (data_color operationData)
      (data_width operationData) (data_tool operationData) in
  let room' := mkRoom (users room) (operations room ++ [operation])
                      (cursors room) in
  (operation,
   mkStore (<[roomId := room']> (rooms st1)) (colorIndex st1) counter).

(** [undoOperation(roomId)]: [None] is [null]. *)
Definition undoOperation (roomId : string) (st : Store)
    : option Operation * Store :=
  let '(room, st1) := getRoom roomId st in
  if (length (operations room) =? 0)%nat then (None, st1)
  else
    (last (operations room),
     put_room roomId
       (mkRoom (users room) (removelast (operations room)) (cursors room))
       st1).

(** [getOperations(roomId)] *)
Definition getOperations (roomId : string) (st : Store)
    : list Operation * Store :=
  let '(room, st1) := getRoom roomId st in
  (operations room, st1).



End DrawingState.

(** ** [server/server.js]: the socket handlers *)

Module Server.
Import Rooms DrawingState.

(** Payload of the client's [draw_start] and [draw_move] events: the keys
    the canvas sends, and the value of a [userId] key of its own when the
    payload has one.  The server relays the payload as it comes. *)
Record DrawStartData := mkDrawStartData {
  start_x : float;
  start_y : float;
  start_color : string;
  start_width : float;
  start_tool : string;
  start_userId : option string
}.

Record DrawMoveData := mkDrawMoveData {
  move_x : float;
  move_y : float;
  move_userId : option string
}.

(** The [userId] of [{ userId: socket.id, ...data }]: the spread comes after
    the key, so a [userId] key of the payload replaces the socket's id. *)
Definition spread_userId (socketId : string) (payload : option string)
    : string :=
  match payload with
  | Some userId => userId
  | None => socketId
  end.

(** What the server emits, by event name. *)
Inductive Message : Type :=
| full_sync (ops : list Operation) (participants : list User)
| user_joined (uid : string) (user : User) (participants : list User)
| draw_start (uid : string) (data : DrawStartData)
| draw_move (uid : string) (data : DrawMoveData)
| operation_added (operation : Operation)
| operation_removed (operationId : Z)
| cursor_update (uid : string) (cx cy : float)
| user_left (uid : string) (user : option User) (participants : list User).

(** The three ways a handler sends: [socket.emit] (to the socket itself),
    [io.to(room).emit] (to every socket that joined the room) and
    [socket.to(room).emit] (to the room except the socket). *)
Inductive Emit : Type :=
| socket_emit (socketId : string) (m : Message)
| io_to_emit (roomId : string) (m : Message)
| socket_to_emit (socketId roomId : string) (m : Message).

(** What the server receives: a new connection, or one of the events a
    connected socket listens to.  Handlers that call [Date.now()] take its
    value with the event. *)
Inductive Event : Type :=
| on_connection (socketId : string)
| on_join_room (socketId roomId : string) (given : option string) (now : Z)
| on_draw_start (socketId : string) (data : DrawStartData)
| on_draw_move (socketId : string) (data : DrawMoveData)
| on_draw_end (socketId : string) (data : OperationData) (now : Z)
| on_undo (socketId : string)
| on_cursor_move (socketId : string) (cx cy : float) (now : Z)
| on_disconnect (socketId : string).

(** The process: the module state and, for every connected socket, the
    [currentRoom] variable of its closure ([None] is [null]). *)
Record Process := mkProcess {
  store : Store;
  sockets : gmap string (option string)
}.

Definition initial : Process := mkProcess initial_store ∅.

(** [if (!currentRoom) return;] lets the handler go on only for a room id
    that is neither [null] nor the empty string. *)
Definition truthy (currentRoom : option string) : option string :=
  match currentRoom with
  | Some roomId => if decide (roomId = ""%string) then None else Some roomId
  | None => None
  end.

(** Each handler maps the closure's [currentRoom] and the store to their new
    values and the messages sent, in order. *)
Definition Handler : Type :=
  option string -> Store -> option string * Store * list Emit.

Definition handle_join_room (socketId roomId : string) (given : option string)
    (now : Z) : Handler := fun _ st =>
  let '(user, st1) := addUserToRoom roomId socketId given now st in
  let '(ops, st2) := getOperations roomId st1 in
  let participants := getRoomUsers roomId st2 in
  (Some roomId, st2,
   [ socket_emit socketId (full_sync ops participants);
     io_to_emit roomId (user_joined socketId user participants) ]).

Definition handle_draw_start (socketId : string) (data : DrawStartData)
    : Handler := fun currentRoom st =>
  match truthy currentRoom with
  | None => (currentRoom, st, [])
  | Some roomId =>
      (currentRoom, st,
       [ socket_to_emit socketId roomId
           (draw_start (spread_userId socketId (start_userId data)) data) ])
  end.

Definition handle_draw_move (socketId : string) (data : DrawMoveData)
    : Handler := fun currentRoom st =>
  match truthy currentRoom with
  | None => (currentRoom, st, [])
  | Some roomId =>
      (currentRoom, st,
       [ socket_to_emit socketId roomId
           (draw_move (spread_userId socketId (move_userId data)) data) ])
  end.

Definition handle_draw_end (socketId : string) (data : OperationData) (now : Z)
    : Handler := fun currentRoom st =>
  match truthy currentRoom with
  | None => (currentRoom, st, [])
  | Some roomId =>
      let '(operation, st1) := addOperation roomId socketId data now st in
      (currentRoom, st1, [ io_to_emit roomId (operation_added operation) ])
  end.

Definition handle_undo (socketId : string) : Handler := fun currentRoom st =>
  match truthy currentRoom with
  | None => (currentRoom, st, [])
  | Some roomId =>
      match undoOperation roomId st with
      | (Some removedOperation, st1) =>
          (currentRoom, st1,
           [ io_to_emit roomId (operation_removed (id removedOperation)) ])
      | (None, st1) => (currentRoom, st1, [])
      end
  end.

Definition handle_cursor_move (socketId : string) (cx cy : float) (now : Z)
    : Handler := fun currentRoom st =>
  match truthy currentRoom with
  | None => (currentRoom, st, [])
  | Some roomId =>
      (currentRoom, updateCursor roomId socketId cx cy now st,
       [ socket_to_emit socketId roomId (cursor_update socketId cx cy) ])
  end.

Definition handle_disconnect (socketId : string) : Handler :=
  fun currentRoom st =>
  match truthy currentRoom with
  | None => (currentRoom, st, [])
  | Some roomId =>
      let '(user, st1) := removeUserFromRoom roomId socketId st in
      let participants := getRoomUsers roomId st1 in
      (currentRoom, st1,
       [ io_to_emit roomId (user_left socketId user participants) ])
  end.

(** Run a handler in the closure of [socketId]; an event for a socket that
    is not connected is never delivered. *)
Definition deliver (socketId : string) (h : Handler) (p : Process)
    : Process * list Emit :=
  match sockets p !! socketId with
  | None => (p, [])
  | Some currentRoom =>
      let '(currentRoom', st', out) := h currentRoom (store p) in
      (mkProcess st' (<[socketId := currentRoom']> (sockets p)), out)
  end.

(** One turn of the event loop.  Socket ids are unique among the connected
    sockets; after [disconnect] the socket's closure is gone. *)
Definition step (p : Process) (e : Event) : Process * list Emit :=
  match e with
  | on_connection socketId =>
      match sockets p !! socketId with
      | None => (mkProcess (store p) (<[socketId := None]> (sockets p)), [])
      | Some _ => (p, [])
      end
  | on_join_room socketId roomId given now =>
      deliver socketId (handle_join_room socketId roomId given now) p
  | on_draw_start socketId data =>
      deliver socketId (handle_draw_start socketId data) p
  | on_draw_move socketId data =>
      deliver socketId (handle_draw_move socketId data) p
  | on_draw_end socketId data now =>
      deliver socketId (handle_draw_end socketId data now) p
  | on_undo socketId => deliver socketId (handle_undo socketId) p
  | on_cursor_move socketId cx cy now =>
      deliver socketId (handle_cursor_move socketId cx cy now) p
  | on_disconnect socketId =>
      let '(p', out) := deliver socketId (handle_disconnect socketId) p in
      (mkProcess (store p') (delete socketId (sockets p')), out)
  end.

(** The events are handled one after the other, each to completion. *)
Fixpoint run (p : Process) (events : list Event) : Process * list Emit :=
  match events with
  | [] => (p, [])
  | e :: rest =>
      let '(p1, out1) := step p e in
      let '(p2, out2) := run p1 rest in
      (p2, out1 ++ out2)
  end.

(** The ids of the operations announced by [operation_added]. *)
Definition committed_id (e : Emit) : option Z :=
  match e with
  | io_to_emit _ (operation_added operation) => Some (id operation)
  | _ => None
  end.

Definition committed_ids (out : list Emit) : list Z :=
  omap committed_id out.

(** The same, for the commits into one room. *)
Definition committed_id_in (roomId : string) (e : Emit) : option Z :=
  match e with
  | io_to_emit r (operation_added operation) =>
      if decide (r = roomId) then Some (id operation) else None
  | _ => None
  end.

Definition committed_ids_in (roomId : string) (out : list Emit) : list Z :=
  omap (committed_id_in roomId) out.

(** The operation log of a room as the registry holds it (empty when there is
    no such room). *)
Definition log (roomId : string) (st : Store) : list Operation :=
  match rooms st !! roomId with
  | Some room => operations room
  | None => []
  end.

End Server.

(** ** [src/utils/canvasOperations.js]: path simplification

  JS numbers are IEEE 754 binary64 values, and so are Rocq's primitive
  floats: [+], [-], [*], [/] and [Math.sqrt] are the same correctly rounded
  operations.  [Math.pow(v, 2)] is evaluated as [v * v] (the result fdlibm
  and V8 return for the exponent 2). *)

Module CanvasOperations.

(** [Math.max] and [Math.min] on two arguments: NaN if either is NaN, and
    [+0] counts as larger than [-0]. *)
Definition Math_max (a b : float) : float :=
  if (is_nan a || is_nan b)%bool then nan
  else if (b <? a)%float then a
  else if (a <? b)%float then b
  else if get_sign a then b else a.

Definition Math_min (a b : float) : float :=
  if (is_nan a || is_nan b)%bool then nan
  else if (a <? b)%float then a
  else if (b <? a)%float then b
  else if get_sign a then a else b.

Definition sq (v : float) : float := (v * v)%float.

(** [perpendicularDistance(point, lineStart, lineEnd)] *)
Definition perpendicularDistance (point lineStart lineEnd : Point) : float :=
  let dx := (x lineEnd - x lineStart)%float in
  let dy := (y lineEnd - y lineStart)%float in
  if ((dx =? 0)%float && (dy =? 0)%float)%bool then
    sqrt (sq (x point - x lineStart) + sq (y point - y lineStart))%float
  else
    let t :=
      Math_max 0%float
        (Math_min 1%float
           (((x point - x lineStart) * dx + (y point - y lineStart) * dy)
            / (dx * dx + dy * dy))%float) in
    let projectionX := (x lineStart + t * dx)%float in
    let projectionY := (y lineStart + t * dy)%float in
    sqrt (sq (x point - projectionX) + sq (y point - projectionY))%float.

(** The [for (let i = 1; i < end; i++)] loop: [interior] holds
    [points[i], ..., points[end - 1]] and the pair is
    [(maxDistance, maxIndex)]. *)
Fixpoint farthest (lineStart lineEnd : Point) (i : nat)
    (interior : list Point) (acc : float * nat) : float * nat :=
  match interior with
  | [] => acc
  | p :: rest =>
      let distance := perpendicularDistance p lineStart lineEnd in
      farthest lineStart lineEnd (S i) rest
        (if (fst acc <? distance)%float then (distance, i) else acc)
  end.

Definition origin : Point := mkPoint 0 0.

(** [optimizePath(points, tolerance)].  The recursion is on slices of the
    array, so the model carries fuel: [None] means the fuel ran out before
    the JS function returned. *)
Fixpoint optimizePath (fuel : nat) (points : list Point) (tolerance : float)
    : option (list Point) :=
  match fuel with
  | O => None
  | S fuel' =>
      if (length points <=? 2)%nat then Some points
      else
        let end_ := (length points - 1)%nat in
        let first := nth 0 points origin in
        let last_ := nth end_ points origin in
        let '(maxDistance, maxIndex) :=
          farthest first last_ 1
            (firstn (end_ - 1) (skipn 1 points)) (0%float, 0%nat) in
        if (tolerance <? maxDistance)%float then
          match optimizePath fuel' (firstn (maxIndex + 1) points) tolerance with
          | None => None
          | Some leftPart =>
              match optimizePath fuel' (skipn maxIndex points) tolerance with
              | None => None
              | Some rightPart => Some (removelast leftPart ++ rightPart)
              end
          end
        else Some [first; last_]
  end.

(** The stroke of the simplification scenario. *)
Definition scenario_points : list Point :=
  [ mkPoint 0 0; mkPoint 1 0.1; mkPoint 2 (-0.1); mkPoint 10 0 ].

End CanvasOperations.

(** ** Vocabulary of the statements *)

Module Spec.
Import Rooms DrawingState Server.

(** A commit request: the arguments of one [addOperation] call. *)
Record Commit := mkCommit {
  commit_room : string;
  commit_user : string;
  commit_data : OperationData;
  commit_now : Z
}.

(** A sequence of commits, in order; the result lists the room and the
    returned operation of each. *)
Fixpoint commit_all (cs : list Commit) (st : Store)
    : list (string * Operation) * Store :=
  match cs with
  | [] => ([], st)
  | c :: rest =>
      let '(operation, st1) :=
        addOperation (commit_room c) (commit_user c) (commit_data c)
                     (commit_now c) st in
      let '(done, st2) := commit_all rest st1 in
      ((commit_room c, operation) :: done, st2)
  end.

(** The operations of [done] that went into [roomId], in order. *)
Definition committed_to (roomId : string) (done : list (string * Operation))
    : list Operation :=
  omap (fun ro => if decide (ro.1 = roomId) then Some ro.2 else None) done.

(** [counter + 1, ..., counter + n] *)
Definition consecutive (counter : Z) (n : nat) : list Z :=
  map (fun k => (counter + Z.of_nat k)%Z) (seq 1 n).

(** The participant count of a room, zero when there is no such room. *)
Definition participant_count (roomId : string) (st : Store) : nat :=
  length (getRoomUsers roomId st).

(** Every registered room has a participant. *)
Definition rooms_inhabited (st : Store) : Prop :=
  forall roomId room, rooms st !! roomId = Some room -> users room <> [].

(** Every connected socket that is in a room is one of its participants. *)
Definition sockets_registered (p : Process) : Prop :=
  forall socketId currentRoom roomId,
    sockets p !! socketId = Some currentRoom ->
    truthy currentRoom = Some roomId ->
    exists room, rooms (store p) !! roomId = Some room
                 /\ is_Some (map_get socketId (users room)).

Definition invariant (p : Process) : Prop :=
  rooms_inhabited (store p) /\ sockets_registered p.

(** [out] announces a removal. *)
Definition removal_broadcast (out : list Emit) : Prop :=
  exists roomId operationId,
    In (io_to_emit roomId (operation_removed operationId)) out.


(** The [full_sync] payloads that [out] sends to [socketId]. *)
Definition full_sync_to (socketId : string) (e : Emit) : option Message :=
  match e with
  | socket_emit s (full_sync ops participants) =>
      if decide (s = socketId) then Some (full_sync ops participants) else None
  | _ => None
  end.

Definition full_syncs (socketId : string) (out : list Emit) : list Message :=
  omap (full_sync_to socketId) out.


(** *** Scenarios *)

Definition a_stroke : OperationData :=
  mkOperationData [ mkPoint 0 0; mkPoint 10 10 ] "#000000" 4 "brush".

(** A joins room r1 *)
Definition room_opened : list Event :=
  [ on_connection "A"; on_join_room "A" "r1" (Some "Ann") 100 ]%string.

(** and commits. *)
Definition room_alive : list Event :=
  room_opened ++ [ on_draw_end "A"%string a_stroke 101 ].

(** A then leaves; the room is destroyed. *)
Definition room_lifetime : list Event :=
  room_alive ++ [ on_disconnect "A"%string ].

(** B then joins under the same room id and commits. *)
Definition room_again : list Event :=
  [ on_connection "B"; on_join_room "B" "r1" (Some "Bob") 102;
    on_draw_end "B" a_stroke 103 ]%string.

(** A and B connect, *)
Definition two_connections : list Event :=
  [ on_connection "A"; on_connection "B" ]%string.

(** and join room r1 one after the other. *)
Definition two_joins : list Event :=
  two_connections
  ++ [ on_join_room "A" "r1" (Some "Ann") 100;
       on_join_room "B" "r1" (Some "Bob") 101 ]%string.

(** A and B are in room r1, whose log holds a stroke of B. *)
Definition shared_room : list Event :=
  two_joins ++ [ on_draw_end "B"%string a_stroke 102 ].

(** The process once A and B share room r1. *)
Definition shared_process : Process := (run initial shared_room).1.






(** A stroke that A starts under the name of B. *)
Definition borrowed_start : DrawStartData :=
  mkDrawStartData 1 1 "#FF0000" 4 "brush" (Some "B"%string).


End Spec.

(** ** [server/rooms.js]: the cursors of a room *)

Module Cursors.

(** A plain object that holds cursors: its own properties and, once an
    assignment has replaced [Object.prototype], its prototype. *)
Record PlainObject := mkPlainObject {
  own : gmap string Cursor;
  prototype : option Cursor
}.

(** [{}] *)
Definition empty_object : PlainObject := mkPlainObject ∅ None.

(** [cursors[userId] = cursor].  A cursor is an object, so under the key
    ["__proto__"] the assignment goes to the setter the object inherits
    and makes the cursor its prototype; no property is added. *)
Definition assign (userId : string) (cursor : Cursor) (o : PlainObject)
    : PlainObject :=
  if decide (userId = "__proto__"%string) then
    mkPlainObject (own o) (Some cursor)
  else mkPlainObject (<[userId := cursor]> (own o)) (prototype o).

(** [getRoomCursors(roomId)]: a fresh object, to which [forEach] assigns
    every entry of the room's [cursors] table. *)
Definition getRoomCursors (roomId : string) (st : Store) : PlainObject :=
  match rooms st !! roomId with
  | None => empty_object
  | Some room => map_fold assign empty_object (cursors room)
  end.

End Cursors.

(** ** socket.io: who is in which room, and who gets an emit

  [socket.join(roomId)] puts the socket in a room of the adapter, and the
  [to(roomId)] of an emit stands for the sockets that are in that room when
  the emit is made.  A socket is in the room named by its own id from its
  connection on, and it is taken out of all its rooms when it disconnects,
  before its [disconnect] handler runs.  [server.js] never calls
  [socket.leave]: the rooms a socket has joined stay its rooms as long as
  it is connected. *)

Module SocketIo.
Import Server.

(** The adapter holds, for each connected socket, the rooms it is in. *)
Definition no_sockets : gmap string (gset string) := ∅.

Definition socket_rooms (adapter : gmap string (gset string))
    (socketId : string) : gset string :=
  default ∅ (adapter !! socketId).

(** What an event does to the adapter: a connection enters the socket with
    the room of its own id, the [socket.join(roomId)] of the [join_room]
    handler adds a room, a disconnect drops the socket. *)
Definition adapt (adapter : gmap string (gset string)) (e : Event)
    : gmap string (gset string) :=
  match e with
  | on_connection socketId =>
      match adapter !! socketId with
      | None => <[socketId := {[ socketId ]}]> adapter
      | Some _ => adapter
      end
  | on_join_room socketId roomId _ _ =>
      match adapter !! socketId with
      | Some joined => <[socketId := {[ roomId ]} ∪ joined]> adapter
      | None => adapter
      end
  | on_disconnect socketId => delete socketId adapter
  | _ => adapter
  end.

Definition adapter_after (events : list Event)
    (adapter : gmap string (gset string)) : gmap string (gset string) :=
  fold_left adapt events adapter.

(** The sockets that are in a room. *)
Definition in_room (adapter : gmap string (gset string)) (roomId : string)
    : gset string :=
  dom (filter (fun entry : string * gset string => roomId ∈ entry.2) adapter).

(** The sockets an emit goes to. *)
Definition recipients (adapter : gmap string (gset string)) (e : Emit)
    : gset string :=
  match e with
  | socket_emit socketId _ => {[ socketId ]}
  | io_to_emit roomId _ => in_room adapter roomId
  | socket_to_emit socketId roomId _ => in_room adapter roomId ∖ {[ socketId ]}
  end.

Definition message (e : Emit) : Message :=
  match e with
  | socket_emit _ m | io_to_emit _ m | socket_to_emit _ _ m => m
  end.

(** The message of an emit, if the emit goes to [socketId]. *)
Definition reaches (adapter : gmap string (gset string)) (socketId : string)
    (e : Emit) : option Message :=
  if decide (socketId ∈ recipients adapter e) then Some (message e) else None.

(** What [socketId] receives while the server handles [events]: of each
    event, the emits that go to it, the adapter being as the event leaves it
    (the join handler calls [socket.join] before it emits, and a socket has
    left its rooms when its disconnect handler runs). *)
Fixpoint inbox (socketId : string) (p : Process)
    (adapter : gmap string (gset string)) (events : list Event)
    : list Message :=
  match events with
  | [] => []
  | e :: rest =>
      let adapter1 := adapt adapter e in
      let '(p1, out) := step p e in
      omap (reaches adapter1 socketId) out ++ inbox socketId p1 adapter1 rest
  end.

End SocketIo.

(** ** [src/App.jsx]: what the client does with the server's messages *)

Module App.
Import Server.

(** The value [cursor_update] stores for a user: [{ x, y }]. *)
Record CursorPosition := mkCursorPosition {
  position_x : float;
  position_y : float
}.

(** The state hooks of [App] that the socket listeners write. *)
Record State := mkState {
  operations : list Operation;
  onlineUsers : list User;
  cursors : gmap string CursorPosition;
  currentUserId : option string;
  undoStack : list Operation;
  redoStack : list Operation
}.

(** The initial values of the hooks. *)
Definition initialState : State := mkState [] [] ∅ None [] [].

(** [websocketService.getSocketId()]: [this.socket?.id || null], for a
    socket whose id is [socketId] if it has one. *)
Definition getSocketId (socketId : option string) : option string :=
  truthy socketId.

(** The listener [App] registers for a message; [draw_start] and [draw_move]
    have none.  The updates are the functional ones of the source, applied
    to the state as it is. *)
Definition receive (socketId : option string) (a : State) (m : Message)
    : State :=
  match m with
  | user_joined uid _ participants =>
      mkState (operations a) participants (cursors a)
              (if decide (Some uid = getSocketId socketId) then Some uid
               else currentUserId a)
              (undoStack a) (redoStack a)
  | user_left uid _ participants =>
      mkState (operations a) participants (delete uid (cursors a))
              (currentUserId a) (undoStack a) (redoStack a)
  | full_sync ops participants =>
      mkState ops participants (cursors a) (currentUserId a)
              (undoStack a) (redoStack a)
  | operation_added operation =>
      mkState (operations a ++ [operation]) (onlineUsers a) (cursors a)
              (currentUserId a) (undoStack a ++ [operation]) []
  | operation_removed operationId =>
      mkState (List.filter (fun op => negb (id op =? operationId)%Z)
                           (operations a))
              (onlineUsers a) (cursors a) (currentUserId a)
              (undoStack a) (redoStack a)
  | cursor_update uid cx cy =>
      mkState (operations a) (onlineUsers a)
              (<[uid := mkCursorPosition cx cy]> (cursors a))
              (currentUserId a) (undoStack a) (redoStack a)
  | draw_start _ _ | draw_move _ _ => a
  end.

(** [handleUndo]: the events sent to the server, none when the local list
    of operations is empty. *)
Definition handleUndo (socketId : string) (a : State) : list Event :=
  if (length (operations a) =? 0)%nat then [] else [ on_undo socketId ].

(** The [canUndo] flag passed to the toolbar. *)
Definition canUndo (a : State) : bool := (0 <? length (operations a))%nat.

End App.

(** ** [src/utils/canvasOperations.js]: rendering

  The 2D context is what the functions write to: the model returns the calls
  and property assignments they make on it, in order. *)

Module Rendering.

Inductive Command : Type :=
| save
| restore
| set_globalCompositeOperation (v : string)
| set_strokeStyle (v : string)
| set_lineWidth (v : float)
| set_lineCap (v : string)
| set_lineJoin (v : string)
| beginPath
| arc (cx cy radius startAngle endAngle : float)
| fill
| moveTo (px py : float)
| lineTo (px py : float)
| quadraticCurveTo (cpx cpy px py : float)
| stroke
| clearRect (px py w h : float).

(** [Math.PI] *)
Definition Math_PI : float := 0x1.921fb54442d18p+1%float.

(** The loop [for (let i = 1; i < points.length - 1; i++)] of [drawStroke]
    over [points[1], points[2], ...]: a curve through each point to the
    middle of it and the next. *)
Fixpoint curves (from1 : list Point) : list Command :=
  match from1 with
  | p :: (q :: _) as rest =>
      quadraticCurveTo (x p) (y p) ((x p + x q) / 2)%float
                       ((y p + y q) / 2)%float
      :: curves rest
  | _ => []
  end.

(** [drawStroke(ctx, points, color, width, tool)] *)
Definition drawStroke (points : list Point) (color : string) (width : float)
    (tool : string) : list Command :=
  match points with
  | [] => []
  | first :: rest =>
      [ save ]
      ++ (if decide (tool = "eraser"%string) then
            [ set_globalCompositeOperation "destination-out";
              set_strokeStyle "rgba(0,0,0,1)" ]
          else
            [ set_globalCompositeOperation "source-over";
              set_strokeStyle color ])
      ++ [ set_lineWidth width; set_lineCap "round"; set_lineJoin "round" ]
      ++ match rest with
         | [] =>
             [ beginPath;
               arc (x first) (y first) (width / 2)%float 0%float
                   (Math_PI * 2)%float;
               fill ]
         | [ second ] =>
             [ beginPath; moveTo (x first) (y first);
               lineTo (x second) (y second); stroke ]
         | _ =>
             let lastPoint := List.last points first in
             let secondLastPoint := List.last (removelast points) first in
             [ beginPath; moveTo (x first) (y first) ]
             ++ curves rest
             ++ [ quadraticCurveTo (x secondLastPoint) (y secondLastPoint)
                                   (x lastPoint) (y lastPoint);
                  stroke ]
         end
      ++ [ restore ]
  end.

(** [redrawCanvas(ctx, operations, canvasWidth, canvasHeight)] *)
Definition redrawCanvas (ops : list Operation)
    (canvasWidth canvasHeight : float) : list Command :=
  clearRect 0%float 0%float canvasWidth canvasHeight
  :: flat_map
       (fun operation =>
          if decide (type operation = "draw"%string) then
            drawStroke (points operation) (op_color operation)
                       (width operation) (tool operation)
          else [])
       ops.

End Rendering.

(** ** Vocabulary of the further statements *)

Module Vocabulary.
Import Rooms DrawingState Server Cursors.

(** [n] calls of [undoOperation] on a room, with their results in order. *)
Fixpoint undo_times (n : nat) (roomId : string) (st : Store)
    : list (option Operation) * Store :=
  match n with
  | O => ([], st)
  | S n' =>
      let '(removed, st1) := undoOperation roomId st in
      let '(results, st2) := undo_times n' roomId st1 in
      (removed :: results, st2)
  end.

(** The room an event acts on: the room named by a join, the current room of
    the socket for the other events of a socket; none for a connection and
    for sockets that are not connected or not in a room. *)
Definition addressed (p : Process) (e : Event) : option string :=
  match e with
  | on_connection _ => None
  | on_join_room socketId roomId _ _ =>
      match sockets p !! socketId with
      | Some _ => Some roomId
      | None => None
      end
  | on_draw_start socketId _ | on_draw_move socketId _
  | on_draw_end socketId _ _ | on_undo socketId
  | on_cursor_move socketId _ _ _ | on_disconnect socketId =>
      match sockets p !! socketId with
      | Some currentRoom => truthy currentRoom
      | None => None
      end
  end.

(** The room a message is sent to, if it is sent to a room. *)
Definition emit_room (e : Emit) : option string :=
  match e with
  | socket_emit _ _ => None
  | io_to_emit roomId _ => Some roomId
  | socket_to_emit _ roomId _ => Some roomId
  end.

(** The socket whose event made the server send. *)
Definition sender (e : Event) : string :=
  match e with
  | on_connection s | on_join_room s _ _ _ | on_draw_start s _
  | on_draw_move s _ | on_draw_end s _ _ | on_undo s
  | on_cursor_move s _ _ _ | on_disconnect s => s
  end.

(** A relayed payload is tagged with the sender's id when it has no
    [userId] of its own, and with its own otherwise. *)
Definition tagged (from : string) (payload : option string) (uid : string)
    : Prop :=
  (payload = None -> uid = from)
  /\ (forall claimed, payload = Some claimed -> uid = claimed).

(** Who gets which message: the snapshot goes to the joiner alone; presence
    and log changes go to the whole room, and cursors to the room but the
    sender, all with the sender's id; strokes in progress go to the room but
    the sender, tagged as above. *)
Definition audience_ok (from : string) (e : Emit) : Prop :=
  match e with
  | socket_emit s (full_sync _ _) => s = from
  | io_to_emit _ (user_joined uid user _) => uid = from /\ userId user = from
  | io_to_emit _ (user_left uid _ _) => uid = from
  | io_to_emit _ (operation_added operation) => op_userId operation = from
  | io_to_emit _ (operation_removed _) => True
  | socket_to_emit s _ (draw_start uid data) =>
      s = from /\ tagged from (start_userId data) uid
  | socket_to_emit s _ (draw_move uid data) =>
      s = from /\ tagged from (move_userId data) uid
  | socket_to_emit s _ (cursor_update uid _ _) => s = from /\ uid = from
  | _ => False
  end.

(** The colors of the users announced by [user_joined], in order. *)
Definition joined_color (e : Emit) : option string :=
  match e with
  | io_to_emit _ (user_joined _ user _) => Some (color user)
  | _ => None
  end.

Definition joined_colors (out : list Emit) : list string :=
  omap joined_color out.

(** The palette entries from index [first] on, cyclically. *)
Definition palette_from (first n : nat) : list string :=
  map (fun k => nth ((first + k) mod length USER_COLORS) USER_COLORS ""%string)
      (seq 0 n).

(** The ids of a log. *)
Definition log_ids (ops : list Operation) : list Z := map id ops.

(** What the operation logs of a store look like: ids strictly increasing
    within a log, between 1 and the counter, every operation of type
    ["draw"]. *)
Definition logs_well_formed (st : Store) : Prop :=
  (0 <= operationIdCounter st)%Z
  /\ forall roomId,
       StronglySorted Z.lt (log_ids (log roomId st))
       /\ Forall (fun o => (0 < id o <= operationIdCounter st)%Z
                           /\ type o = "draw"%string)
                 (log roomId st).

(** No id occurs in the logs of two rooms. *)
Definition logs_separate (st : Store) : Prop :=
  forall r1 r2 o1 o2,
    In o1 (log r1 st) -> In o2 (log r2 st) -> id o1 = id o2 -> r1 = r2.

(** No one joins the room [roomId] by this event. *)
Definition avoids (roomId : string) (e : Event) : Prop :=
  match e with
  | on_join_room _ r _ _ => r <> roomId
  | _ => True
  end.

(** No socket has [roomId] for its current room. *)
Definition unused (roomId : string) (p : Process) : Prop :=
  forall socketId currentRoom,
    sockets p !! socketId = Some currentRoom -> currentRoom <> Some roomId.

(** The adapter and the socket table know the same sockets. *)
Definition synced (p : Process) (adapter : gmap string (gset string))
    : Prop :=
  forall socketId,
    is_Some (adapter !! socketId) <-> is_Some (sockets p !! socketId).

(** A filter on emits, by what they name: the message of an emit to the
    socket [socketId] or to the room [roomId], but for the emits to the
    room that except [socketId].  Who receives an emit is for
    [SocketIo.reaches] to say. *)
Definition names (socketId roomId : string) (e : Emit)
    : option Message :=
  match e with
  | socket_emit s m => if decide (s = socketId) then Some m else None
  | io_to_emit r m => if decide (r = roomId) then Some m else None
  | socket_to_emit s r m =>
      if decide (r = roomId) then
        if decide (s = socketId) then None else Some m
      else None
  end.

Definition naming (socketId roomId : string) (out : list Emit)
    : list Message :=
  omap (names socketId roomId) out.

(** The client state after the messages [msgs], in order. *)
Definition received (socketId : option string) (a : App.State)
    (msgs : list Message) : App.State :=
  fold_left (App.receive socketId) msgs a.

(** The client shows what the server holds of the room. *)
Definition in_sync (a : App.State) (roomId : string) (st : Store) : Prop :=
  App.operations a = log roomId st
  /\ App.onlineUsers a = getRoomUsers roomId st.

(** The events under which the socket stays in the room: all but its
    disconnect and its joins into other rooms. *)
Definition stays (socketId roomId : string) (e : Event) : Prop :=
  match e with
  | on_disconnect s => s <> socketId
  | on_join_room s r _ _ => s = socketId -> r = roomId
  | _ => True
  end.

(** The number of calls of one kind in a trace. *)
Definition calls (is_call : Rendering.Command -> bool)
    (trace : list Rendering.Command) : nat :=
  length (List.filter is_call trace).

Definition is_save (c : Rendering.Command) : bool :=
  match c with Rendering.save => true | _ => false end.

Definition is_restore (c : Rendering.Command) : bool :=
  match c with Rendering.restore => true | _ => false end.

Definition is_curve (c : Rendering.Command) : bool :=
  match c with Rendering.quadraticCurveTo _ _ _ _ => true | _ => false end.

(** The stroke style a trace sets, if it sets one. *)
Definition stroke_styles (trace : list Rendering.Command) : list string :=
  omap (fun c => match c with
                 | Rendering.set_strokeStyle v => Some v
                 | _ => None
                 end) trace.

(** *** Further scenarios *)

(** A path with a corner. *)
Definition corner : list Point :=
  [ mkPoint 0 0; mkPoint 5 5; mkPoint 10 0 ].

(** Three times the same point. *)
Definition standstill : list Point :=
  [ mkPoint 1 1; mkPoint 1 1; mkPoint 1 1 ].

(** The stroke that B commits in the shared room. *)
Definition first_stroke : Operation :=
  mkOperation 1 "B" 102 "draw" (data_points Spec.a_stroke)
              (data_color Spec.a_stroke) (data_width Spec.a_stroke)
              (data_tool Spec.a_stroke).

(** A connects and joins room r1 sixteen times over. *)
Definition sixteen_joins : list Event :=
  on_connection "A"
  :: map (fun k => on_join_room "A" "r1" None (Z.of_nat k)) (seq 0 16).

(** A joins room r1, then room r2, and disconnects. *)
Definition room_switch : list Event :=
  [ on_join_room "A" "r1" None 1; on_join_room "A" "r2" None 2;
    on_disconnect "A" ]%string.

(** A and B connect and join room r0. *)
Definition both_in_r0 : list Event :=
  Spec.two_connections
  ++ [ on_join_room "A" "r0" None 1; on_join_room "B" "r0" None 2 ]%string.

(** A then moves on to room r1. *)
Definition moved_on : list Event :=
  both_in_r0 ++ [ on_join_room "A" "r1" None 3 ]%string.

(** What goes on around A once it is in room r1: B joins, draws, A undoes
    and draws, B leaves. *)
Definition busy_room : list Event :=
  [ on_join_room "B" "r1" None 2; on_draw_end "B" Spec.a_stroke 3;
    on_undo "A"; on_draw_end "A" Spec.a_stroke 4; on_disconnect "B" ]%string.

(** The run in which A joins and watches. *)
Definition watched : Process * list Emit :=
  run (run initial Spec.two_connections).1
      (on_join_room "A" "r1" None 1 :: busy_room).

(** Two commits into room r1. *)
Definition two_commits : list Spec.Commit :=
  [ Spec.mkCommit "r1" "A" Spec.a_stroke 1;
    Spec.mkCommit "r1" "B" Spec.a_stroke 2 ]%string.

End Vocabulary.

(* ===================================================================== *)
(** * Properties *)
(* ===================================================================== *)

Import Rooms DrawingState Server Spec.

(** ** The users table *)

Section JsMapFacts.
Context {V : Type}.
Implicit Types (k : string) (v : V) (m : jsmap V).

Lemma map_get_set k k' v m :
  map_get k (map_set k' v m) = if decide (k' = k) then Some v else map_get k m.
Proof.
  induction m as [|[k0 v0] m IH]; simpl.
  - repeat case_decide; congruence.
  - repeat (case_decide; simpl); try congruence.
Qed.

Lemma map_get_delete k k' m :
  map_get k (map_delete k' m) = if decide (k' = k) then None else map_get k m.
Proof.
  induction m as [|[k0 v0] m IH]; simpl.
  - by case_decide.
  - repeat (case_decide; simpl); try congruence.
Qed.

Lemma map_get_nonempty k m : is_Some (map_get k m) -> m <> [].
Proof. intros [v Hv] ->. discriminate Hv. Qed.

Lemma map_set_nonempty k v m : map_set k v m <> [].
Proof. destruct m as [|[k0 v0] m]; simpl; [|case_decide]; discriminate. Qed.

Lemma map_delete_absent k m : map_get k m = None -> map_delete k m = m.
Proof.
  induction m as [|[k0 v0] m IH]; simpl; [done|].
  case_decide; [discriminate|]. intros Hget. by rewrite IH.
Qed.

Lemma map_set_absent k v m :
  map_get k m = None -> map_set k v m = m ++ [(k, v)].
Proof.
  induction m as [|[k0 v0] m IH]; simpl; [done|].
  case_decide; [discriminate|]. intros Hget. by rewrite IH.
Qed.

Lemma map_size_zero m : (map_size m =? 0)%nat = true <-> m = [].
Proof.
  unfold map_size. rewrite Nat.eqb_eq. split.
  - apply nil_length_inv.
  - by intros ->.
Qed.

End JsMapFacts.

(** ** The registry *)

Lemma getRoom_lookup roomId st :
  rooms (getRoom roomId st).2 !! roomId = Some (getRoom roomId st).1.
Proof.
  unfold getRoom. destruct (rooms st !! roomId) eqn:E; simpl; [done|].
  by rewrite lookup_insert_eq.
Qed.

Lemma getRoom_lookup_ne roomId r st :
  roomId <> r -> rooms (getRoom roomId st).2 !! r = rooms st !! r.
Proof.
  intros Hne. unfold getRoom. destruct (rooms st !! roomId); simpl; [done|].
  by rewrite lookup_insert_ne.
Qed.

Lemma getRoom_present roomId room st :
  rooms st !! roomId = Some room -> getRoom roomId st = (room, st).
Proof. intros H. unfold getRoom. by rewrite H. Qed.

Lemma getRoom_absent roomId st :
  rooms st !! roomId = None ->
  getRoom roomId st = (new_room, put_room roomId new_room st).
Proof. intros H. unfold getRoom. by rewrite H. Qed.

Lemma getRoom_operations roomId st :
  operations (getRoom roomId st).1 = log roomId st.
Proof. unfold getRoom, log. by destruct (rooms st !! roomId). Qed.

Lemma getRoom_counter roomId st :
  operationIdCounter (getRoom roomId st).2 = operationIdCounter st.
Proof. unfold getRoom. by destruct (rooms st !! roomId). Qed.

Lemma getOperations_log roomId st : (getOperations roomId st).1 = log roomId st.
Proof.
  unfold getOperations. pose proof (getRoom_operations roomId st) as H.
  by destruct (getRoom roomId st).
Qed.

Lemma getOperations_store roomId st :
  (getOperations roomId st).2 = (getRoom roomId st).2.
Proof. unfold getOperations. by destruct (getRoom roomId st). Qed.

(** ** The operation log *)

Lemma addOperation_log roomId userId data now st :
  log roomId (addOperation roomId userId data now st).2
  = log roomId st ++ [(addOperation roomId userId data now st).1].
Proof.
  unfold addOperation. pose proof (getRoom_operations roomId st) as H.
  destruct (getRoom roomId st) as [room st1]; simpl in *.
  unfold log at 1; simpl. by rewrite lookup_insert_eq, H.
Qed.

Lemma addOperation_log_ne roomId r userId data now st :
  roomId <> r -> log r (addOperation roomId userId data now st).2 = log r st.
Proof.
  intros Hne. unfold addOperation.
  pose proof (getRoom_lookup_ne roomId r st Hne) as H.
  destruct (getRoom roomId st) as [room st1]; simpl in *.
  unfold log; simpl. by rewrite lookup_insert_ne, H.
Qed.

Lemma addOperation_id roomId userId data now st :
  id (addOperation roomId userId data now st).1 = (operationIdCounter st + 1)%Z
  /\ operationIdCounter (addOperation roomId userId data now st).2
     = (operationIdCounter st + 1)%Z.
Proof.
  unfold addOperation. pose proof (getRoom_counter roomId st) as H.
  destruct (getRoom roomId st) as [room st1]; simpl in *. by rewrite H.
Qed.

(** C2: the snapshot of a room after a sequence of commits is its snapshot
    before, followed by the operations committed into that room in the order
    of their commits (commits into other rooms may be interleaved); one
    commit appends exactly its operation at the tail. *)
Theorem snapshot_is_commit_order :
  forall (cs : list Commit) (st : Store) (roomId : string),
    (getOperations roomId (commit_all cs st).2).1
    = (getOperations roomId st).1 ++ committed_to roomId (commit_all cs st).1.
Proof.
  intros cs st roomId. rewrite !getOperations_log. revert st.
  induction cs as [|c cs IH]; intros st; simpl.
  - by rewrite app_nil_r.
  - pose proof (addOperation_log (commit_room c) (commit_user c)
                  (commit_data c) (commit_now c) st) as Hsame.
    pose proof (addOperation_log_ne (commit_room c) roomId (commit_user c)
                  (commit_data c) (commit_now c) st) as Hother.
    destruct (addOperation _ _ _ _ st) as [operation st1]; simpl in *.
    specialize (IH st1). destruct (commit_all cs st1) as [done st2]; simpl in *.
    rewrite IH. unfold committed_to; simpl. case_decide as Hr.
    + subst roomId. by rewrite Hsame, <- app_assoc.
    + by rewrite Hother.
Qed.

Lemma undoOperation_spec roomId st :
  (undoOperation roomId st).1 = last (log roomId st)
  /\ log roomId (undoOperation roomId st).2 = removelast (log roomId st)
  /\ (forall r, roomId <> r ->
        rooms (undoOperation roomId st).2 !! r = rooms st !! r).
Proof.
  unfold undoOperation.
  pose proof (getRoom_operations roomId st) as Hops.
  pose proof (getRoom_lookup roomId st) as Hin.
  pose proof (fun r => getRoom_lookup_ne roomId r st) as Hout.
  destruct (getRoom roomId st) as [room st1]; simpl in *.
  rewrite Hops. destruct (log roomId st) as [|o l] eqn:E; simpl.
  - repeat split; [|done]. unfold log. by rewrite Hin, Hops.
  - repeat split.
    + unfold log, put_room; simpl. by rewrite lookup_insert_eq.
    + intros r Hne. unfold put_room; simpl. rewrite lookup_insert_ne by done.
      by apply Hout.
Qed.

(** C3: [undoOperation] returns the last operation of the room's log and
    leaves the log without it; right after a commit it returns the operation
    just committed and the room's log, indeed the whole registry, is what it
    was before the commit (with the room registered, as [getRoom] leaves
    it). *)
Theorem undo_inverts_commit :
  forall (st : Store) (roomId userId : string) (data : OperationData) (now : Z),
    let committed := addOperation roomId userId data now st in
    let undone := undoOperation roomId committed.2 in
    undone.1 = Some committed.1
    /\ (getOperations roomId undone.2).1 = (getOperations roomId st).1
    /\ rooms undone.2 = rooms (getRoom roomId st).2
    /\ (undoOperation roomId st).1 = last (getOperations roomId st).1
    /\ (getOperations roomId (undoOperation roomId st).2).1
       = removelast (getOperations roomId st).1.
Proof.
  intros st roomId userId data now committed undone.
  rewrite !getOperations_log.
  destruct (undoOperation_spec roomId committed.2) as (Hret & Hlog & Hframe).
  destruct (undoOperation_spec roomId st) as (Hret0 & Hlog0 & _).
  fold undone in Hret, Hlog, Hframe.
  unfold committed in Hret, Hlog.
  rewrite addOperation_log in Hret, Hlog.
  rewrite last_snoc in Hret. rewrite removelast_last in Hlog.
  repeat split; try done.
  apply map_eq. intros r. destruct (decide (roomId = r)) as [<-|Hne].
  - rewrite getRoom_lookup.
    assert (rooms committed.2 !! roomId
            = Some (mkRoom (users (getRoom roomId st).1)
                           (operations (getRoom roomId st).1 ++ [committed.1])
                           (cursors (getRoom roomId st).1))) as Hc.
    { unfold committed, addOperation.
      destruct (getRoom roomId st) as [room st1]; simpl.
      by rewrite lookup_insert_eq. }
    unfold undone, undoOperation. rewrite (getRoom_present _ _ _ Hc); simpl.
    rewrite length_app; simpl. rewrite Nat.add_1_r; simpl.
    unfold put_room; simpl. rewrite lookup_insert_eq, removelast_last.
    by destruct (getRoom roomId st).1.
  - rewrite Hframe by done. rewrite getRoom_lookup_ne by done.
    unfold committed, addOperation.
    pose proof (getRoom_lookup_ne roomId r st Hne) as H.
    destruct (getRoom roomId st) as [room st1]; simpl in *.
    by rewrite lookup_insert_ne.
Qed.

(** ** The id counter along a run *)

Lemma addUserToRoom_counter roomId socketId given now st :
  operationIdCounter (addUserToRoom roomId socketId given now st).2
  = operationIdCounter st.
Proof.
  unfold addUserToRoom. pose proof (getRoom_counter roomId st) as H.
  by destruct (getRoom roomId st).
Qed.

Lemma removeUserFromRoom_counter roomId socketId st :
  operationIdCounter (removeUserFromRoom roomId socketId st).2
  = operationIdCounter st.
Proof.
  unfold removeUserFromRoom. destruct (rooms st !! roomId); [|done].
  by case_match.
Qed.

Lemma undoOperation_counter roomId st :
  operationIdCounter (undoOperation roomId st).2 = operationIdCounter st.
Proof.
  unfold undoOperation. pose proof (getRoom_counter roomId st) as H.
  destruct (getRoom roomId st); simpl in *. by case_match.
Qed.

Lemma updateCursor_counter roomId socketId cx cy now st :
  operationIdCounter (updateCursor roomId socketId cx cy now st)
  = operationIdCounter st.
Proof. unfold updateCursor. by destruct (rooms st !! roomId). Qed.

(** A turn of the event loop either commits nothing and leaves the counter,
    or commits one operation under the next id. *)
Lemma step_counter p e :
  (committed_ids (step p e).2 = []
   /\ operationIdCounter (store (step p e).1) = operationIdCounter (store p))
  \/ (committed_ids (step p e).2 = [(operationIdCounter (store p) + 1)%Z]
      /\ operationIdCounter (store (step p e).1)
         = (operationIdCounter (store p) + 1)%Z).
Proof.
  destruct e as [s|s r g now|s d|s d|s d now|s|s cx cy now|s]; simpl;
    unfold deliver; destruct (sockets p !! s) as [c|] eqn:Hs; simpl;
    try (by left).
  - unfold handle_join_room.
    pose proof (addUserToRoom_counter r s g now p.(store)) as H1.
    destruct (addUserToRoom r s g now (store p)) as [u st1]; simpl in *.
    pose proof (getOperations_store r st1) as H2.
    pose proof (getRoom_counter r st1) as H3.
    destruct (getOperations r st1) as [ops st2]; simpl in *. subst st2.
    left. split; [done|]. congruence.
  - unfold handle_draw_start. destruct (truthy c); by left.
  - unfold handle_draw_move. destruct (truthy c); by left.
  - unfold handle_draw_end. destruct (truthy c) as [r|]; [|by left].
    pose proof (addOperation_id r s d now (store p)) as [H1 H2].
    destruct (addOperation r s d now (store p)) as [o st1]; simpl in *.
    right. by rewrite H1, H2.
  - unfold handle_undo. destruct (truthy c) as [r|]; [|by left].
    pose proof (undoOperation_counter r (store p)) as H.
    destruct (undoOperation r (store p)) as [[o|] st1]; by left.
  - unfold handle_cursor_move. destruct (truthy c) as [r|]; [|by left].
    left. split; [done|]. apply updateCursor_counter.
  - unfold handle_disconnect. destruct (truthy c) as [r|]; [|by left].
    pose proof (removeUserFromRoom_counter r s (store p)) as H.
    destruct (removeUserFromRoom r s (store p)) as [u st1]; by left.
Qed.

Lemma committed_ids_app out1 out2 :
  committed_ids (out1 ++ out2) = committed_ids out1 ++ committed_ids out2.
Proof. apply omap_app. Qed.

Lemma consecutive_S counter n :
  consecutive counter (S n) = (counter + 1)%Z :: consecutive (counter + 1) n.
Proof.
  unfold consecutive. simpl. f_equal.
  rewrite <- seq_shift, map_map. apply map_ext. intros k. lia.
Qed.

(** The ids committed along a run are the next values of the counter, one
    after the other. *)
Lemma run_committed_ids events : forall p,
  committed_ids (run p events).2
  = consecutive (operationIdCounter (store p))
                (length (committed_ids (run p events).2))
  /\ operationIdCounter (store (run p events).1)
     = (operationIdCounter (store p)
        + Z.of_nat (length (committed_ids (run p events).2)))%Z.
Proof.
  induction events as [|e events IH]; intros p; simpl.
  - split; [done|]. simpl. lia.
  - pose proof (step_counter p e) as Hstep.
    destruct (step p e) as [p1 out1]; simpl in *.
    specialize (IH p1). destruct (run p1 events) as [p2 out2]; simpl in *.
    rewrite committed_ids_app, length_app.
    destruct IH as [IHids IHc].
    destruct Hstep as [[-> Hc]|[-> Hc]]; simpl; rewrite Hc in *.
    + done.
    + rewrite consecutive_S. split; [by f_equal|lia].
Qed.

Lemma consecutive_sorted counter n :
  StronglySorted Z.lt (consecutive counter n).
Proof.
  revert counter. induction n as [|n IH]; intros counter.
  - constructor.
  - rewrite consecutive_S. constructor; [apply IH|].
    apply Forall_forall. intros i Hi. unfold consecutive in Hi.
    apply list_elem_of_In, in_map_iff in Hi as (k & <- & Hk).
    apply in_seq in Hk. lia.
Qed.

(** C10: along any run of the process, from any state, the ids that
    [addOperation] assigns are strictly increasing in commit order whatever
    the rooms are, so no two commits share an id; this holds across
    disconnects that destroy a room and joins that create it again. *)
Theorem ids_increase_process_wide :
  forall (p : Process) (events : list Event),
    StronglySorted Z.lt (committed_ids (run p events).2)
    /\ NoDup (committed_ids (run p events).2)
    /\ Forall (fun i => (operationIdCounter (store p) < i)%Z)
              (committed_ids (run p events).2).
Proof.
  intros p events. destruct (run_committed_ids events p) as [Hids _].
  rewrite Hids. set (n := length _). clearbody n.
  pose proof (consecutive_sorted (operationIdCounter (store p)) n) as Hsorted.
  split; [done|]. split.
  - clear Hids. induction Hsorted as [|i l _ IH Hall]; constructor; [|done].
    intros Hin. rewrite Forall_forall in Hall.
    apply Hall in Hin. lia.
  - apply Forall_forall. intros i Hi. unfold consecutive in Hi.
    apply list_elem_of_In, in_map_iff in Hi as (k & <- & Hk).
    apply in_seq in Hk. lia.
Qed.

Lemma committed_ids_in_sublist roomId out :
  committed_ids_in roomId out `sublist_of` committed_ids out.
Proof.
  unfold committed_ids_in, committed_ids.
  induction out as [|e out IH]; [constructor|].
  change (omap ?f (e :: out)) with
    (match f e with Some i => i :: omap f out | None => omap f out end).
  destruct e as [s m|r m|s r m]; simpl; try done.
  destruct m; simpl; try done.
  case_decide; [by apply sublist_skip|by apply sublist_cons].
Qed.

Lemma sublist_strongly_sorted {A : Type} (R : relation A) (l1 l2 : list A) :
  l1 `sublist_of` l2 -> StronglySorted R l2 -> StronglySorted R l1.
Proof.
  induction 1 as [|i l1 l2 Hsub IH|i l1 l2 Hsub IH]; intros Hsorted.
  - constructor.
  - apply StronglySorted_inv in Hsorted as [Hl2 Hall].
    constructor; [by apply IH|].
    rewrite Forall_forall in Hall |- *. intros j Hj.
    by apply Hall, (sublist_subseteq _ _ Hsub).
  - apply StronglySorted_inv in Hsorted as [Hl2 _]. by apply IH.
Qed.

(** C1 (refuted as stated): room r1 is created, receives the commit with
    id 1 and is destroyed when its only participant leaves; created again
    under the same id, its log holds one operation after its first commit,
    and the id of that operation is not 1. *)
Lemma ids_do_not_restart_at_one :
  rooms (store (run initial room_lifetime).1) !! "r1"%string = None
  /\ committed_ids_in "r1" (run initial room_lifetime).2 = [1%Z]
  /\ exists operation,
       log "r1" (store (run initial (room_lifetime ++ room_again)).1)
       = [operation]
       /\ id operation <> 1%Z.
Proof.
  vm_compute. split; [reflexivity|]. split; [reflexivity|].
  eexists. split; [reflexivity|]. discriminate.
Qed.

(** C1 (amended): the ids come from one counter of the process, not of the
    room.  Along a run of the process from its start the commits get
    1, 2, 3, ... in commit order whatever their rooms; so within every room
    the ids are strictly increasing and never reused, and the counter is
    never reset, neither while a room lives nor when it is destroyed and
    created again. *)
Theorem ids_from_process_counter :
  forall (events : list Event) (roomId : string),
    let out := (run initial events).2 in
    committed_ids out = consecutive 0 (length (committed_ids out))
    /\ committed_ids_in roomId out `sublist_of` committed_ids out
    /\ StronglySorted Z.lt (committed_ids_in roomId out)
    /\ NoDup (committed_ids_in roomId out).
Proof.
  intros events roomId out.
  destruct (run_committed_ids events initial) as [Hids _]. fold out in Hids.
  change (operationIdCounter (store initial)) with 0%Z in Hids.
  pose proof (committed_ids_in_sublist roomId out) as Hsub.
  assert (StronglySorted Z.lt (committed_ids out)) as Hsorted.
  { rewrite Hids. apply consecutive_sorted. }
  split; [exact Hids|]. split; [exact Hsub|].
  split; [exact (sublist_strongly_sorted _ _ _ Hsub Hsorted)|].
  eapply sublist_NoDup; [|exact Hsub].
  clear Hids Hsub. induction Hsorted as [|i l _ IH Hall]; constructor; [|done].
  intros Hin. rewrite Forall_forall in Hall. apply Hall in Hin. lia.
Qed.

(** ** The handlers in closed form *)

(** The user object [addUserToRoom] builds for a socket joining [room]. *)
Lemma addUserToRoom_spec roomId socketId given now st :
  let room := default new_room (rooms st !! roomId) in
  let user :=
    mkUser socketId (username_or_default given room)
           (nth (colorIndex st mod length USER_COLORS) USER_COLORS ""%string)
           now in
  addUserToRoom roomId socketId given now st
  = (user,
     mkStore (<[roomId := mkRoom (map_set socketId user (users room))
                                 (operations room) (cursors room)]> (rooms st))
             (colorIndex st + 1) (operationIdCounter st)).
Proof.
  unfold addUserToRoom, getRoom.
  destruct (rooms st !! roomId) as [room|]; simpl; [done|].
  by rewrite insert_insert_eq.
Qed.

Lemma handle_join_room_spec socketId roomId given now currentRoom st :
  let room := default new_room (rooms st !! roomId) in
  let user := (addUserToRoom roomId socketId given now st).1 in
  let participants := map_values (map_set socketId user (users room)) in
  handle_join_room socketId roomId given now currentRoom st
  = (Some roomId,
     mkStore (<[roomId := mkRoom (map_set socketId user (users room))
                                 (operations room) (cursors room)]> (rooms st))
             (colorIndex st + 1) (operationIdCounter st),
     [ socket_emit socketId (full_sync (operations room) participants);
       io_to_emit roomId (user_joined socketId user participants) ]).
Proof.
  unfold handle_join_room. rewrite addUserToRoom_spec; simpl.
  unfold getOperations, getRoom, getRoomUsers; simpl.
  by rewrite lookup_insert_eq; simpl; rewrite lookup_insert_eq.
Qed.

Lemma addOperation_present roomId userId data now st room :
  rooms st !! roomId = Some room ->
  rooms (addOperation roomId userId data now st).2
  = <[roomId := mkRoom (users room)
                       (operations room
                        ++ [(addOperation roomId userId data now st).1])
                       (cursors room)]> (rooms st).
Proof. intros H. unfold addOperation. by rewrite (getRoom_present _ _ _ H). Qed.

Lemma undoOperation_present roomId st room :
  rooms st !! roomId = Some room ->
  rooms (undoOperation roomId st).2
  = <[roomId := mkRoom (users room) (removelast (operations room))
                       (cursors room)]> (rooms st).
Proof.
  intros H. unfold undoOperation. rewrite (getRoom_present _ _ _ H).
  destruct (operations room) as [|o l] eqn:E; simpl; [|done].
  rewrite insert_id; [done|]. rewrite H. f_equal.
  destruct room; simpl in *; by subst.
Qed.

Lemma removeUserFromRoom_present roomId socketId st room :
  rooms st !! roomId = Some room ->
  removeUserFromRoom roomId socketId st
  = (map_get socketId (users room),
     set_rooms st
       (if decide (map_delete socketId (users room) = [])
        then delete roomId (rooms st)
        else <[roomId := mkRoom (map_delete socketId (users room))
                                (operations room)
                                (delete socketId (cursors room))]> (rooms st))).
Proof.
  intros H. unfold removeUserFromRoom. rewrite H; simpl.
  destruct (map_delete socketId (users room)) as [|e m] eqn:E; simpl; done.
Qed.

(** ** The registry invariant *)

(** The invariant only looks at the users of the rooms. *)
Lemma invariant_users_ext p st' :
  invariant p ->
  (forall r, users <$> rooms st' !! r = users <$> rooms (store p) !! r) ->
  invariant (mkProcess st' (sockets p)).
Proof.
  intros [Hinh Hreg] Hext. split.
  - intros r room' Hr. simpl in Hr.
    specialize (Hext r). rewrite Hr in Hext; simpl in Hext.
    destruct (rooms (store p) !! r) as [room|] eqn:E; [|done].
    simpl in Hext. injection Hext as ->. by eapply Hinh.
  - intros s c r Hs Hc. simpl in *.
    destruct (Hreg s c r Hs Hc) as (room & Hr & Hin).
    specialize (Hext r). rewrite Hr in Hext; simpl in Hext.
    destruct (rooms st' !! r) as [room'|]; [|done].
    simpl in Hext. injection Hext as Hu. exists room'. by rewrite Hu.
Qed.

Lemma fmap_lookup_insert_users (rs : gmap string Room) r r0 room room' :
  rs !! r = Some room -> users room' = users room ->
  users <$> <[r := room']> rs !! r0 = users <$> rs !! r0.
Proof.
  intros Hr Hu. destruct (decide (r = r0)) as [<-|Hne].
  - by rewrite lookup_insert_eq, Hr; simpl; rewrite Hu.
  - by rewrite lookup_insert_ne.
Qed.

Lemma invariant_initial : invariant initial.
Proof.
  split; [intros r room H|intros s c r H _]; simpl in H;
    by rewrite lookup_empty in H.
Qed.

Lemma truthy_Some currentRoom roomId :
  truthy currentRoom = Some roomId ->
  currentRoom = Some roomId /\ roomId <> ""%string.
Proof.
  unfold truthy. destruct currentRoom as [r|]; [|done].
  case_decide; [done|]. by intros [= ->].
Qed.

(** A handler that leaves [currentRoom] alone leaves the socket table. *)
Lemma deliver_same socketId (h : Handler) p currentRoom st' out :
  sockets p !! socketId = Some currentRoom ->
  h currentRoom (store p) = (currentRoom, st', out) ->
  deliver socketId h p = (mkProcess st' (sockets p), out).
Proof.
  intros Hs Hh. unfold deliver. rewrite Hs, Hh. by rewrite insert_id.
Qed.

Lemma process_eta p : mkProcess (store p) (sockets p) = p.
Proof. by destruct p. Qed.

(** The two ways a delivery starts and often ends: the socket is connected
    or not, and the handler returned at its guard. *)
Ltac on_socket s c Hs :=
  unfold deliver; destruct (sockets _ !! s) as [c|] eqn:Hs; simpl.

Ltac closure_kept := rewrite insert_id by done; by rewrite process_eta.

Lemma step_invariant p e : invariant p -> invariant (step p e).1.
Proof.
  intros Hinv. pose proof Hinv as [Hinh Hreg].
  destruct e as [s|s r g now|s d|s d|s d now|s|s cx cy now|s]; simpl.
  - (* connection *)
    destruct (sockets p !! s) eqn:Hs; simpl; [done|].
    split; [done|]. intros s' c r Hs' Hc; simpl in *.
    destruct (decide (s = s')) as [<-|Hne].
    + rewrite lookup_insert_eq in Hs'. by injection Hs' as <-.
    + rewrite lookup_insert_ne in Hs' by done. eauto.
  - (* join_room *)
    on_socket s c Hs; [|done].
    rewrite handle_join_room_spec; simpl. split.
    + intros r' room' Hr'; simpl in Hr'.
      destruct (decide (r = r')) as [<-|Hne].
      * rewrite lookup_insert_eq in Hr'. injection Hr' as <-. simpl.
        apply map_set_nonempty.
      * rewrite lookup_insert_ne in Hr' by done. eauto.
    + intros s' c' r' Hs' Hc'; simpl in *.
      destruct (decide (s = s')) as [<-|Hne].
      * rewrite lookup_insert_eq in Hs'. injection Hs' as <-.
        apply truthy_Some in Hc' as [[= <-] _].
        eexists. rewrite lookup_insert_eq. split; [done|]. simpl.
        rewrite map_get_set. by rewrite decide_True.
      * rewrite lookup_insert_ne in Hs' by done.
        destruct (Hreg _ _ _ Hs' Hc') as (room & Hr & Hin).
        destruct (decide (r = r')) as [<-|Hner].
        -- eexists. rewrite lookup_insert_eq. split; [done|]. simpl.
           rewrite Hr; simpl. rewrite map_get_set. by rewrite decide_False.
        -- exists room. by rewrite lookup_insert_ne.
  - (* draw_start *)
    on_socket s c Hs; [|done].
    unfold handle_draw_start. destruct (truthy c); simpl; closure_kept.
  - (* draw_move *)
    on_socket s c Hs; [|done].
    unfold handle_draw_move. destruct (truthy c); simpl; closure_kept.
  - (* draw_end *)
    on_socket s c Hs; [|done].
    unfold handle_draw_end. destruct (truthy c) as [r|] eqn:Hc; simpl.
    2: { closure_kept. }
    destruct (Hreg s c r Hs Hc) as (room & Hr & Hin).
    pose proof (addOperation_present r s d now _ _ Hr) as Hrooms.
    destruct (addOperation r s d now (store p)) as [o st1]; simpl in *.
    rewrite insert_id by done. apply (invariant_users_ext p st1 Hinv).
    intros r0. rewrite Hrooms.
    by apply (fmap_lookup_insert_users _ _ _ room).
  - (* undo *)
    on_socket s c Hs; [|done].
    unfold handle_undo. destruct (truthy c) as [r|] eqn:Hc; simpl.
    2: { closure_kept. }
    destruct (Hreg s c r Hs Hc) as (room & Hr & Hin).
    pose proof (undoOperation_present r _ _ Hr) as Hrooms.
    destruct (undoOperation r (store p)) as [[o|] st1]; simpl in *;
      rewrite insert_id by done; apply (invariant_users_ext p st1 Hinv);
      intros r0; rewrite Hrooms;
      by apply (fmap_lookup_insert_users _ _ _ room).
  - (* cursor_move *)
    on_socket s c Hs; [|done].
    unfold handle_cursor_move. destruct (truthy c) as [r|] eqn:Hc; simpl.
    2: { closure_kept. }
    destruct (Hreg s c r Hs Hc) as (room & Hr & Hin).
    rewrite insert_id by done. apply (invariant_users_ext p _ Hinv).
    intros r0. unfold updateCursor. rewrite Hr. unfold put_room; simpl.
    by apply (fmap_lookup_insert_users _ _ _ room).
  - (* disconnect *)
    unfold deliver. destruct (sockets p !! s) as [c|] eqn:Hs; simpl.
    2: { rewrite delete_id by done. by rewrite process_eta. }
    assert (forall st', rooms_inhabited st' ->
              (forall s' c' r', s <> s' -> sockets p !! s' = Some c' ->
                 truthy c' = Some r' ->
                 exists room, rooms st' !! r' = Some room
                              /\ is_Some (map_get s' (users room))) ->
              invariant (mkProcess st' (delete s (<[s := c]> (sockets p)))))
      as Hclose.
    { intros st' Hinh' Hreg'. split; [done|].
      intros s' c' r' Hs' Hc'; simpl in *. rewrite delete_insert_eq in Hs'.
      destruct (decide (s = s')) as [<-|Hne].
      - by rewrite lookup_delete_eq in Hs'.
      - rewrite lookup_delete_ne in Hs' by done. eauto. }
    unfold handle_disconnect. destruct (truthy c) as [r|] eqn:Hc; simpl.
    { destruct (Hreg s c r Hs Hc) as (room & Hr & Hin).
      rewrite (removeUserFromRoom_present _ _ _ _ Hr); simpl.
      apply Hclose.
      - intros r' room' Hr'; simpl in Hr'. case_decide as Hempty.
        + destruct (decide (r = r')) as [<-|Hne].
          * by rewrite lookup_delete_eq in Hr'.
          * rewrite lookup_delete_ne in Hr' by done. eauto.
        + destruct (decide (r = r')) as [<-|Hne].
          * rewrite lookup_insert_eq in Hr'. by injection Hr' as <-.
          * rewrite lookup_insert_ne in Hr' by done. eauto.
      - intros s' c' r' Hne Hs' Hc'; simpl.
        destruct (Hreg _ _ _ Hs' Hc') as (room1 & Hr1 & Hin1).
        destruct (decide (r = r')) as [<-|Hner].
        + rewrite Hr in Hr1. injection Hr1 as <-.
          assert (is_Some (map_get s' (map_delete s (users room)))) as Hin'.
          { rewrite map_get_delete. by rewrite decide_False. }
          case_decide as Hempty.
          { exfalso. by eapply map_get_nonempty. }
          eexists. rewrite lookup_insert_eq. by split.
        + exists room1. split; [|done].
          case_decide;
            [by rewrite lookup_delete_ne|by rewrite lookup_insert_ne]. }
    apply Hclose; [done|]. intros s' c' r' _. apply Hreg.
Qed.

Lemma run_invariant events :
  forall p, invariant p -> invariant (run p events).1.
Proof.
  induction events as [|e events IH]; intros p Hinv; simpl; [done|].
  pose proof (step_invariant p e Hinv) as Hstep.
  destruct (step p e) as [p1 out1]; simpl in *.
  specialize (IH p1 Hstep). by destruct (run p1 events).
Qed.

(** ** Room lifecycle *)

(** C4 (refuted as stated): on the empty registry, [undoOperation] and
    [getOperations] for a room that does not exist return [null] and [[]],
    but both leave the room registered, with no participant. *)
Lemma undo_registers_missing_room :
  rooms initial_store !! "r1"%string = None
  /\ (undoOperation "r1" initial_store).1 = None
  /\ rooms (undoOperation "r1" initial_store).2 !! "r1"%string = Some new_room
  /\ (getOperations "r1" initial_store).1 = []
  /\ rooms (getOperations "r1" initial_store).2 !! "r1"%string = Some new_room
  /\ participant_count "r1" (undoOperation "r1" initial_store).2 = 0.
Proof. vm_compute. repeat split; reflexivity. Qed.

(** C4 (amended): in every state the process reaches through its socket
    handlers, a room is registered iff it has a participant, and the room a
    connected socket is in is registered, so the handlers never act on a
    missing room.  Called on a missing room, the functions of [rooms.js] are
    no-ops returning nothing, while [undoOperation] and [getOperations]
    return [null] and [[]] but register an empty room (get-or-create). *)
Theorem registry_lifecycle :
  (forall (events : list Event) (roomId : string),
     let st := store (run initial events).1 in
     is_Some (rooms st !! roomId) <-> 0 < participant_count roomId st)
  /\ (forall (events : list Event) (socketId roomId : string) currentRoom,
        let p := (run initial events).1 in
        sockets p !! socketId = Some currentRoom ->
        truthy currentRoom = Some roomId ->
        is_Some (rooms (store p) !! roomId))
  /\ (forall (st : Store) (roomId : string),
        rooms st !! roomId = None ->
        undoOperation roomId st = (None, put_room roomId new_room st)
        /\ getOperations roomId st = ([], put_room roomId new_room st)
        /\ getRoomUsers roomId st = []
        /\ forall socketId cx cy now,
             removeUserFromRoom roomId socketId st = (None, st)
             /\ getUser roomId socketId st = None
             /\ updateCursor roomId socketId cx cy now st = st).
Proof.
  split; [|split].
  - intros events roomId st.
    destruct (run_invariant events initial invariant_initial) as [Hinh _].
    fold st in Hinh. unfold participant_count, getRoomUsers. split.
    + intros [room Hr]. rewrite Hr. specialize (Hinh _ _ Hr).
      unfold map_values. destruct (users room); [done|simpl; lia].
    + destruct (rooms st !! roomId); [done|simpl; lia].
  - intros events socketId roomId currentRoom p Hs Hc.
    destruct (run_invariant events initial invariant_initial) as [_ Hreg].
    destruct (Hreg _ _ _ Hs Hc) as (room & Hr & _). by exists room.
  - intros st roomId Hr. repeat split.
    + unfold undoOperation. by rewrite (getRoom_absent _ _ Hr).
    + unfold getOperations. by rewrite (getRoom_absent _ _ Hr).
    + unfold getRoomUsers. by rewrite Hr.
    + unfold removeUserFromRoom. by rewrite Hr.
    + unfold getUser. by rewrite Hr.
    + unfold updateCursor. by rewrite Hr.
Qed.

Lemma registry_lifecycle_witness :
  undoOperation "r1" initial_store
  = (None, put_room "r1" new_room initial_store)
  /\ getOperations "r1" initial_store
     = ([], put_room "r1" new_room initial_store).
Proof.
  destruct (proj2 (proj2 registry_lifecycle) initial_store "r1"%string)
    as (Hundo & Hget & _); [reflexivity|].
  split; [exact Hundo|exact Hget].
Defined.

(** A join into a room that is not registered: the joiner gets an empty
    history and a participant list that holds the joiner alone. *)
Lemma join_missing_room st socks joiner roomId given now currentRoom :
  rooms st !! roomId = None ->
  socks !! joiner = Some currentRoom ->
  let joined :=
    step (mkProcess st socks) (on_join_room joiner roomId given now) in
  exists user,
    userId user = joiner
    /\ joined.2 = [ socket_emit joiner (full_sync [] [user]);
                    io_to_emit roomId (user_joined joiner user [user]) ]
    /\ rooms (store joined.1) !! roomId = Some (mkRoom [(joiner, user)] [] ∅).
Proof.
  intros Hr Hs; simpl. unfold deliver; simpl. rewrite Hs.
  rewrite handle_join_room_spec; simpl. rewrite Hr; simpl.
  eexists. split; [|split; [reflexivity|by rewrite lookup_insert_eq]].
  by rewrite addUserToRoom_spec.
Qed.

(** C5: when removing a participant leaves the room without participants,
    [removeUserFromRoom] deletes the room from the registry at once, with its
    history, users and cursors, and touches no other room; whoever joins
    under the same room id next gets a [full_sync] with an empty history and
    a participant list that holds nobody but the joiner, and the room then
    registered is a new one. *)
Theorem last_leave_discards_room :
  forall (st : Store) (socketId roomId : string) (room : Room),
    rooms st !! roomId = Some room ->
    map_size (map_delete socketId (users room)) = 0 ->
    let st' := (removeUserFromRoom roomId socketId st).2 in
    rooms st' = delete roomId (rooms st)
    /\ rooms st' !! roomId = None
    /\ getRoomUsers roomId st' = []
    /\ forall socks joiner given now currentRoom,
         socks !! joiner = Some currentRoom ->
         let joined :=
           step (mkProcess st' socks) (on_join_room joiner roomId given now) in
         exists user,
           userId user = joiner
           /\ joined.2 = [ socket_emit joiner (full_sync [] [user]);
                           io_to_emit roomId (user_joined joiner user [user]) ]
           /\ rooms (store joined.1) !! roomId
              = Some (mkRoom [(joiner, user)] [] ∅).
Proof.
  intros st socketId roomId room Hr Hsize st'.
  assert (rooms st' = delete roomId (rooms st)) as Hrooms.
  { unfold st'. rewrite (removeUserFromRoom_present _ _ _ _ Hr); simpl.
    apply nil_length_inv in Hsize. by rewrite decide_True. }
  assert (rooms st' !! roomId = None) as Hgone.
  { rewrite Hrooms. apply lookup_delete_eq. }
  split; [done|]. split; [done|]. split.
  - unfold getRoomUsers. by rewrite Hgone.
  - intros socks joiner given now currentRoom Hs.
    by apply (join_missing_room st' socks joiner roomId given now currentRoom).
Qed.

Lemma last_leave_discards_room_witness :
  rooms (removeUserFromRoom "r1" "A" (store (run initial room_alive).1)).2
    !! "r1"%string = None.
Proof.
  edestruct (last_leave_discards_room (store (run initial room_alive).1)
               "A" "r1") as (_ & Hgone & _);
    [vm_compute; reflexivity|reflexivity|exact Hgone].
Defined.

(** ** Full sync at join time *)

(** C6 (refuted as stated): A and B join room r1 one after the other with
    nothing in between; the two [full_sync] payloads differ. *)
Lemma full_sync_payloads_differ :
  exists payloadA payloadB,
    full_syncs "A" (run initial two_joins).2 = [payloadA]
    /\ full_syncs "B" (run initial two_joins).2 = [payloadB]
    /\ payloadA <> payloadB.
Proof.
  vm_compute. do 2 eexists. split; [reflexivity|]. split; [reflexivity|].
  discriminate.
Qed.

(** C6 (amended): when two sockets join the same room one right after the
    other, the second not being a participant yet, both [full_sync] payloads
    carry the same operation history, the log of the room; the participant
    list sent to the second joiner is the list sent to the first with the
    second joiner appended, since each list includes the joiner. *)
Theorem joiners_share_history :
  forall (p : Process) (socketA socketB roomId : string)
         (givenA givenB : option string) (nowA nowB : Z)
         (currentA currentB : option string),
    sockets p !! socketA = Some currentA ->
    sockets p !! socketB = Some currentB ->
    socketA <> socketB ->
    getUser roomId socketB (store p) = None ->
    let first := step p (on_join_room socketA roomId givenA nowA) in
    let second := step first.1 (on_join_room socketB roomId givenB nowB) in
    exists ops participantsA userB,
      full_syncs socketA first.2 = [full_sync ops participantsA]
      /\ full_syncs socketB second.2
         = [full_sync ops (participantsA ++ [userB])]
      /\ userId userB = socketB
      /\ ops = log roomId (store p).
Proof.
  intros p socketA socketB roomId givenA givenB nowA nowB currentA currentB
    HA HB Hne Hfresh first second.
  unfold second, first; simpl. unfold deliver. rewrite HA; simpl.
  rewrite handle_join_room_spec; simpl.
  rewrite lookup_insert_ne by done. rewrite HB; simpl.
  rewrite handle_join_room_spec; simpl.
  rewrite lookup_insert_eq; simpl.
  set (room := default new_room (rooms (store p) !! roomId)).
  set (userA := (addUserToRoom roomId socketA givenA nowA (store p)).1).
  set (userB := (addUserToRoom roomId socketB givenB nowB _).1).
  assert (map_get socketB (users room) = None) as Hget.
  { unfold room, getUser in *. by destruct (rooms (store p) !! roomId). }
  exists (operations room),
    (map_values (map_set socketA userA (users room))), userB.
  unfold full_syncs; simpl. rewrite !decide_True by done.
  split; [done|]. split; [|split].
  - rewrite (map_set_absent socketB).
    + unfold map_values. by rewrite map_app.
    + rewrite map_get_set. by rewrite decide_False.
  - unfold userB. by rewrite addUserToRoom_spec.
  - unfold room, log. by destruct (rooms (store p) !! roomId).
Qed.

Lemma joiners_share_history_witness :
  exists ops participantsA userB,
    full_syncs "A"
      (step (run initial two_connections).1
            (on_join_room "A" "r1" (Some "Ann"%string) 100)).2
    = [full_sync ops participantsA]
    /\ full_syncs "B"
         (step (step (run initial two_connections).1
                     (on_join_room "A" "r1" (Some "Ann"%string) 100)).1
               (on_join_room "B" "r1" (Some "Bob"%string) 101)).2
       = [full_sync ops (participantsA ++ [userB])]
    /\ userId userB = "B"%string
    /\ ops = log "r1" (store (run initial two_connections).1).
Proof.
  apply (joiners_share_history (run initial two_connections).1 "A" "B" "r1"
           (Some "Ann"%string) (Some "Bob"%string) 100 101 None None);
    [reflexivity|reflexivity|discriminate|reflexivity].
Defined.

(** ** Undo *)

Lemma log_lookup_ext roomId st st' :
  rooms st' !! roomId = rooms st !! roomId -> log roomId st' = log roomId st.
Proof. intros H. unfold log. by rewrite H. Qed.

(** The [undo] handler of a socket that is in a room, by the room's log. *)
Lemma handle_undo_spec socketId currentRoom roomId st :
  truthy currentRoom = Some roomId ->
  let handled := handle_undo socketId currentRoom st in
  handled.1.2 = (undoOperation roomId st).2
  /\ match last (log roomId st) with
     | Some o => handled.2 = [ io_to_emit roomId (operation_removed (id o)) ]
     | None => handled.2 = []
     end.
Proof.
  intros Hc; simpl. unfold handle_undo. rewrite Hc.
  destruct (undoOperation_spec roomId st) as (Hret & _).
  destruct (undoOperation roomId st) as [[o|] st1]; simpl in *;
    by rewrite <- Hret.
Qed.

Lemma removal_broadcast_nil : ~ removal_broadcast [].
Proof. by intros (? & ? & []). Qed.

(** C7: an undo request for a room whose history is empty returns nothing,
    leaves the history empty and sends nothing; for every undo request, an
    [operation_removed] is broadcast iff the log of some room got shorter,
    and it is then addressed to that room and names the operation that was
    the last of its log. *)
Theorem undo_broadcast_iff_removed :
  forall (p : Process) (socketId : string),
    let after := step p (on_undo socketId) in
    (forall currentRoom roomId,
        sockets p !! socketId = Some currentRoom ->
        truthy currentRoom = Some roomId ->
        log roomId (store p) = [] ->
        (undoOperation roomId (store p)).1 = None
        /\ log roomId (store after.1) = []
        /\ after.2 = [])
    /\ (removal_broadcast after.2 <->
        exists roomId,
          length (log roomId (store after.1)) < length (log roomId (store p)))
    /\ (forall roomId operationId,
          In (io_to_emit roomId (operation_removed operationId)) after.2 ->
          exists l o,
            log roomId (store p) = l ++ [o]
            /\ id o = operationId
            /\ log roomId (store after.1) = l
            /\ after.2 = [ io_to_emit roomId (operation_removed operationId) ]).
Proof.
  intros p socketId after. unfold after; simpl. unfold deliver.
  destruct (sockets p !! socketId) as [c|] eqn:Hs; simpl.
  2: { split; [done|]. split; [|by intros ? ? []].
       split; [by intros ?%removal_broadcast_nil|]. intros [r Hlt]. lia. }
  destruct (truthy c) as [r|] eqn:Hc.
  2: { unfold handle_undo. rewrite Hc; simpl.
       split; [intros c0 r0 [= <-] Hc0; congruence|].
       split; [|by intros ? ? []].
       split; [by intros ?%removal_broadcast_nil|]. intros [r Hlt]. lia. }
  pose proof (handle_undo_spec socketId c r (store p) Hc) as [Hst Hout].
  destruct (undoOperation_spec r (store p)) as (Hret & Hlog & Hframe).
  destruct (handle_undo socketId c (store p)) as [[c' st1] out]; simpl in *.
  subst st1.
  assert (log r (store p) = []
          \/ exists l0 o0, log r (store p) = l0 ++ [o0]) as Hcases.
  { destruct (log r (store p)) using rev_ind; eauto. }
  split; [|split].
  - intros c0 r0 [= <-] Hc0 Hempty. rewrite Hc in Hc0. injection Hc0 as <-.
    rewrite Hempty in *. simpl in *. by rewrite Hret, Hlog, Hout.
  - destruct Hcases as [Hl|(l0 & o0 & Hl)]; rewrite Hl in *.
    + simpl in Hout. subst out. split; [by intros ?%removal_broadcast_nil|].
      intros [r0 Hlt]. destruct (decide (r = r0)) as [<-|Hne].
      * rewrite Hlog, Hl in Hlt. simpl in Hlt. lia.
      * rewrite (log_lookup_ext r0 (store p) (undoOperation r (store p)).2)
          in Hlt by auto. lia.
    + rewrite last_snoc in Hout. subst out.
      split; [|intros _; eexists _, _; by left].
      intros _. exists r. rewrite Hlog, Hl, removelast_last, length_app.
      simpl. lia.
  - intros r0 i Hin. destruct Hcases as [Hl|(l0 & o0 & Hl)]; rewrite Hl in *.
    + simpl in Hout. by subst out.
    + rewrite last_snoc in Hout. subst out.
      destruct Hin as [[= <- <-]|[]].
      exists l0, o0. by rewrite Hlog, Hl, removelast_last.
Qed.

Lemma undo_broadcast_iff_removed_witness :
  (undoOperation "r1" (store (run initial room_opened).1)).1 = None
  /\ log "r1" (store (step (run initial room_opened).1 (on_undo "A")).1) = []
  /\ (step (run initial room_opened).1 (on_undo "A")).2 = [].
Proof.
  apply (proj1 (undo_broadcast_iff_removed (run initial room_opened).1 "A")
           (Some "r1"%string) "r1"%string); reflexivity.
Defined.

(** ** Disconnect in the middle of a stroke *)





(** What [removeUserFromRoom] leaves of the registry: a room that is still
    there has its log, and its users but for the socket; a room goes only
    when it is the socket's and nobody else is in it. *)
Lemma removeUserFromRoom_kept roomId socketId st r room' :
  rooms (removeUserFromRoom roomId socketId st).2 !! r = Some room' ->
  exists room,
    rooms st !! r = Some room
    /\ operations room' = operations room
    /\ (users room' = users room
        \/ (r = roomId /\ users room' = map_delete socketId (users room))).
Proof.
  destruct (rooms st !! roomId) as [room0|] eqn:Hr0.
  - rewrite (removeUserFromRoom_present _ _ _ _ Hr0); simpl.
    destruct (decide (roomId = r)) as [<-|Hne]; case_decide.
    + by rewrite lookup_delete_eq.
    + rewrite lookup_insert_eq. intros [= <-]. exists room0. simpl. eauto.
    + rewrite lookup_delete_ne by done. eauto.
    + rewrite lookup_insert_ne by done. eauto.
  - unfold removeUserFromRoom. rewrite Hr0; simpl. eauto.
Qed.

Lemma removeUserFromRoom_gone roomId socketId st r room :
  rooms st !! r = Some room ->
  rooms (removeUserFromRoom roomId socketId st).2 !! r = None ->
  r = roomId /\ map_delete socketId (users room) = [].
Proof.
  intros Hr. destruct (rooms st !! roomId) as [room0|] eqn:Hr0.
  - rewrite (removeUserFromRoom_present _ _ _ _ Hr0); simpl.
    destruct (decide (roomId = r)) as [<-|Hne]; case_decide.
    + intros _. by rewrite Hr in Hr0; injection Hr0 as <-.
    + by rewrite lookup_insert_eq.
    + rewrite lookup_delete_ne by done. congruence.
    + rewrite lookup_insert_ne by done. congruence.
  - unfold removeUserFromRoom. rewrite Hr0; simpl. congruence.
Qed.


Lemma step_disconnect_spec p socketId :
  let after := step p (on_disconnect socketId) in
  sockets after.1 = delete socketId (sockets p)
  /\ ((store after.1 = store p /\ after.2 = [])
      \/ exists roomId,
           sockets p !! socketId = Some (Some roomId)
           /\ store after.1 = (removeUserFromRoom roomId socketId (store p)).2
           /\ exists user participants,
                after.2 = [ io_to_emit roomId
                              (user_left socketId user participants) ]).
Proof.
  simpl. unfold deliver.
  destruct (sockets p !! socketId) as [c|] eqn:Hs; simpl.
  2: { split; [by rewrite delete_id|by left]. }
  unfold handle_disconnect. destruct (truthy c) as [r|] eqn:Hc; simpl.
  2: { split; [by rewrite delete_insert_eq|by left]. }
  apply truthy_Some in Hc as [-> _].
  destruct (removeUserFromRoom r socketId (store p)) as [u st1] eqn:E; simpl.
  split; [by rewrite delete_insert_eq|]. right. exists r.
  split; [done|]. split; [by rewrite E|]. by eexists _, _.
Qed.




Lemma removeUserFromRoom_lookup_ne roomId r socketId st :
  roomId <> r ->
  rooms (removeUserFromRoom roomId socketId st).2 !! r = rooms st !! r.
Proof.
  intros Hne. unfold removeUserFromRoom.
  destruct (rooms st !! roomId) as [room|]; [|done].
  case_match; simpl; [by rewrite lookup_delete_ne|by rewrite lookup_insert_ne].
Qed.







(** ** Path simplification *)

Section PathSimplification.
Import CanvasOperations.

(** More fuel does not change a result. *)
Lemma optimizePath_fuel_mono fuel : forall fuel' points tolerance result,
  optimizePath fuel points tolerance = Some result ->
  fuel <= fuel' ->
  optimizePath fuel' points tolerance = Some result.
Proof.
  induction fuel as [|fuel IH]; intros fuel' points tolerance result Hrun Hle;
    [discriminate|].
  destruct fuel' as [|fuel']; [lia|]. simpl in *.
  destruct (length points <=? 2)%nat; [done|].
  destruct (farthest _ _ _ _ _) as [maxDistance maxIndex].
  destruct (tolerance <? maxDistance)%float; [|done].
  destruct (optimizePath fuel (firstn _ _) tolerance) as [leftPart|] eqn:Hl;
    [|discriminate].
  destruct (optimizePath fuel (skipn _ _) tolerance) as [rightPart|] eqn:Hr;
    [|discriminate].
  rewrite (IH fuel' _ _ _ Hl), (IH fuel' _ _ _ Hr) by lia. done.
Qed.

(** Both interior points of the scenario are about 0.1 away from the chord,
    far below the tolerance: the last bits of [Math.pow] and [Math.sqrt]
    cannot change the outcome. *)
Lemma scenario_distances :
  Forall (fun p =>
            (perpendicularDistance p (mkPoint 0 0) (mkPoint 10 0) <? 0.11)%float
            = true)
         [ mkPoint 1 0.1; mkPoint 2 (-0.1) ].
Proof. repeat constructor. Qed.

(** C9: with tolerance 2, [optimizePath] maps
    [[{0,0},{1,0.1},{2,-0.1},{10,0}]] to [[{0,0},{10,0}]]: no interior
    point is farther than the tolerance from the chord, so the call returns
    the two endpoints at once (any positive amount of fuel is enough). *)
Theorem optimizePath_scenario :
  forall fuel : nat,
    optimizePath (S fuel) scenario_points 2
    = Some [ mkPoint 0 0; mkPoint 10 0 ].
Proof. intros fuel. vm_compute. reflexivity. Qed.

End PathSimplification.

(* ===================================================================== *)
(** * Further properties *)
(* ===================================================================== *)

Import Cursors Vocabulary.

(** Opens the case of each event, down to the guard of its handler. *)
Ltac event_cases p e :=
  destruct e as [s|s r0 g now|s d|s d|s d now|s|s cx cy now|s];
  cbn -[nth Nat.modulo];
  unfold deliver; destruct (sockets p !! s) as [c|] eqn:Hs;
  cbn -[nth Nat.modulo];
  unfold handle_draw_start, handle_draw_move, handle_draw_end, handle_undo,
    handle_cursor_move, handle_disconnect;
  try match goal with
      | |- context [truthy c] =>
          destruct (truthy c) as [r1|] eqn:Hc; cbn -[nth Nat.modulo]
      end.

(** ** Rooms are isolated *)

Lemma addOperation_lookup_ne roomId r userId data now st :
  roomId <> r ->
  rooms (addOperation roomId userId data now st).2 !! r = rooms st !! r.
Proof.
  intros Hne. unfold addOperation.
  pose proof (getRoom_lookup_ne roomId r st Hne) as H.
  destruct (getRoom roomId st) as [room st1]; simpl in *.
  by rewrite lookup_insert_ne.
Qed.

Lemma updateCursor_lookup_ne roomId r socketId cx cy now st :
  roomId <> r ->
  rooms (updateCursor roomId socketId cx cy now st) !! r = rooms st !! r.
Proof.
  intros Hne. unfold updateCursor.
  destruct (rooms st !! roomId) as [room|]; [|done].
  simpl. by rewrite lookup_insert_ne.
Qed.

Lemma step_frame p e roomId :
  addressed p e <> Some roomId ->
  rooms (store (step p e).1) !! roomId = rooms (store p) !! roomId
  /\ Forall (fun m => emit_room m <> Some roomId) (step p e).2.
Proof.
  revert roomId. intros r Hother. unfold addressed in Hother.
  event_cases p e; try rewrite Hs in Hother; try rewrite Hc in Hother;
    try (split; [done|by repeat constructor]).
  - rewrite handle_join_room_spec; simpl.
    assert (r0 <> r) by congruence. rewrite lookup_insert_ne by done.
    split; [done|]. repeat constructor; simpl; congruence.
  - assert (r1 <> r) by congruence.
    pose proof (addOperation_lookup_ne r1 r s d now (store p)) as Hrooms.
    destruct (addOperation r1 s d now (store p)) as [o st1]; simpl in *.
    split; [auto|]. repeat constructor; simpl; congruence.
  - assert (r1 <> r) by congruence.
    destruct (undoOperation_spec r1 (store p)) as (_ & _ & Hframe).
    destruct (undoOperation r1 (store p)) as [[o|] st1]; simpl in *;
      (split; [auto|]); repeat constructor; simpl; congruence.
  - assert (r1 <> r) by congruence.
    split; [by apply updateCursor_lookup_ne|].
    repeat constructor; simpl; congruence.
  - assert (r1 <> r) by congruence.
    pose proof (removeUserFromRoom_lookup_ne r1 r s (store p)) as Hrooms.
    destruct (removeUserFromRoom r1 s (store p)) as [u st1]; simpl in *.
    split; [auto|]. repeat constructor; simpl; congruence.
Qed.

(** X1: an event touches one room only.  The registry entry of every room
    but the one the event addresses (the room joined, or the current room of
    the socket) is what it was, with its log, users and cursors, and no
    message is sent to such a room. *)
Theorem rooms_are_isolated :
  forall (p : Process) (e : Event) (roomId : string),
    addressed p e <> Some roomId ->
    rooms (store (step p e).1) !! roomId = rooms (store p) !! roomId
    /\ Forall (fun m => emit_room m <> Some roomId) (step p e).2.
Proof. intros p e roomId. apply step_frame. Qed.

Lemma rooms_are_isolated_witness :
  rooms (store (step shared_process (on_draw_end "A" a_stroke 200)).1)
    !! "r2"%string
  = rooms (store shared_process) !! "r2"%string
  /\ Forall (fun m => emit_room m <> Some "r2"%string)
            (step shared_process (on_draw_end "A" a_stroke 200)).2.
Proof.
  apply (rooms_are_isolated shared_process (on_draw_end "A" a_stroke 200)
           "r2"%string).
  vm_compute. discriminate.
Defined.

(** ** Who is told what *)

Lemma tagged_spread from payload :
  tagged from payload (spread_userId from payload).
Proof. split; [by intros ->|by intros claimed ->]. Qed.

Lemma step_audience p e : Forall (audience_ok (sender e)) (step p e).2.
Proof.
  event_cases p e; try by repeat constructor.
  - rewrite handle_join_room_spec; simpl.
    repeat constructor; simpl. by rewrite addUserToRoom_spec.
  - constructor; [|constructor]. split; [done|apply tagged_spread].
  - constructor; [|constructor]. split; [done|apply tagged_spread].
  - unfold addOperation. destruct (getRoom r1 (store p)) as [room st1]; simpl.
    by repeat constructor.
  - destruct (undoOperation r1 (store p)) as [[o|] st1]; simpl;
      by repeat constructor.
  - destruct (removeUserFromRoom r1 s (store p)) as [u st1]; simpl.
    by repeat constructor.
Qed.

(** X2: every message a handler sends goes to the audience of its kind:
    [full_sync] to the joining socket alone; [user_joined], [user_left],
    [operation_added] and [operation_removed] to the whole room, sender
    included; [draw_start], [draw_move] and [cursor_update] to the room
    without the sender.  The user id they carry is the sender's, but for
    the relayed [draw_start] and [draw_move]: there a [userId] key of the
    client's payload replaces the socket's id, so a socket in a room can
    show the others a stroke in progress under any user id it likes. *)
Theorem messages_reach_their_audience :
  (forall (p : Process) (e : Event),
     Forall (audience_ok (sender e)) (step p e).2)
  /\ (forall (p : Process) (socketId roomId claimed : string)
             (start : DrawStartData) (move : DrawMoveData),
        sockets p !! socketId = Some (Some roomId) ->
        roomId <> ""%string ->
        start_userId start = Some claimed ->
        move_userId move = Some claimed ->
        (step p (on_draw_start socketId start)).2
        = [ socket_to_emit socketId roomId (draw_start claimed start) ]
        /\ (step p (on_draw_move socketId move)).2
           = [ socket_to_emit socketId roomId (draw_move claimed move) ]).
Proof.
  split; [apply step_audience|].
  intros p s r claimed start move Hs Hr Hstart Hmove. cbn [step].
  unfold deliver, handle_draw_start, handle_draw_move. rewrite Hs. simpl.
  rewrite decide_False by done. simpl. by rewrite Hstart, Hmove.
Qed.

Lemma messages_reach_their_audience_witness :
  (step shared_process (on_draw_start "A" borrowed_start)).2
  = [ socket_to_emit "A" "r1" (draw_start "B" borrowed_start) ].
Proof.
  apply (proj2 messages_reach_their_audience shared_process "A" "r1" "B"
           borrowed_start (mkDrawMoveData 3 1 (Some "B")))%string;
    (reflexivity || discriminate).
Defined.

(** ** Sockets that are in no room *)

Lemma step_outside p e currentRoom :
  sockets p !! sender e = Some currentRoom ->
  truthy currentRoom = None ->
  match e with
  | on_connection _ | on_join_room _ _ _ _ => True
  | on_disconnect socketId =>
      step p e = (mkProcess (store p) (delete socketId (sockets p)), [])
  | _ => step p e = (p, [])
  end.
Proof.
  revert currentRoom. intros c0 Hlive Hnull.
  destruct e as [s|s r0 g now|s d|s d|s d now|s|s cx cy now|s]; try done;
    simpl in *; unfold deliver; rewrite Hlive; simpl;
    unfold handle_draw_start, handle_draw_move, handle_draw_end, handle_undo,
      handle_cursor_move, handle_disconnect; rewrite Hnull; simpl;
    rewrite ?insert_id by done; by rewrite ?process_eta.
Qed.

(** X3: the events of a connected socket whose [currentRoom] is [null] or
    the empty string do nothing: strokes, undo and cursor moves leave the
    process as it is and send nothing; a disconnect only forgets the socket
    and leaves the store as it is, so a socket that joined under the empty
    room id is not removed from that room by its disconnect. *)
Theorem events_outside_a_room_are_ignored :
  forall (p : Process) (e : Event) (currentRoom : option string),
    sockets p !! sender e = Some currentRoom ->
    truthy currentRoom = None ->
    match e with
    | on_connection _ | on_join_room _ _ _ _ => True
    | on_disconnect socketId =>
        step p e = (mkProcess (store p) (delete socketId (sockets p)), [])
    | _ => step p e = (p, [])
    end.
Proof. intros p e currentRoom. apply step_outside. Qed.

Lemma events_outside_a_room_are_ignored_witness :
  let p := (run initial [on_connection "A"; on_join_room "A" "" None 5]).1 in
  step p (on_disconnect "A")
  = (mkProcess (store p) (delete "A" (sockets p)), [])
  /\ getUser "" "A" (store (step p (on_disconnect "A")).1) <> None.
Proof.
  split.
  - apply (events_outside_a_room_are_ignored
             (run initial [on_connection "A"; on_join_room "A" "" None 5]).1
             (on_disconnect "A") (Some ""%string)); reflexivity.
  - discriminate.
Defined.

(** ** The presence table *)

Section JsMapMore.
Context {V : Type}.
Implicit Types (k : string) (v : V) (m : jsmap V).

Lemma map_set_length k v m :
  length (map_set k v m)
  = match map_get k m with
    | Some _ => length m
    | None => S (length m)
    end.
Proof.
  induction m as [|[k0 v0] m IH]; simpl; [done|].
  case_decide; simpl; [done|]. rewrite IH. by destruct (map_get k m).
Qed.

Lemma map_delete_empty k k' m :
  map_delete k m = [] -> k <> k' -> map_get k' m = None.
Proof.
  induction m as [|[k0 v0] m IH]; simpl; [done|].
  case_decide; [|done]. subst k0. intros Hd Hne. rewrite decide_False by done.
  by apply IH.
Qed.

End JsMapMore.

(** X4: [addUserToRoom] followed by [getUser] gives back the user just
    added, who carries the socket's id; the users of the other sockets and
    of the other rooms are as before; the participant count grows by one
    unless the socket was a participant already, in which case its entry is
    replaced and the count stays. *)
Theorem added_user_is_found :
  forall (st : Store) (roomId socketId : string) (given : option string)
         (now : Z),
    let added := addUserToRoom roomId socketId given now st in
    getUser roomId socketId added.2 = Some added.1
    /\ userId added.1 = socketId
    /\ joinedAt added.1 = now
    /\ (forall other, other <> socketId ->
          getUser roomId other added.2 = getUser roomId other st)
    /\ (forall room, room <> roomId ->
          getRoomUsers room added.2 = getRoomUsers room st)
    /\ participant_count roomId added.2
       = match getUser roomId socketId st with
         | Some _ => participant_count roomId st
         | None => S (participant_count roomId st)
         end
    /\ log roomId added.2 = log roomId st.
Proof.
  intros st r s g now added. unfold added. rewrite addUserToRoom_spec.
  cbn [fst snd]. unfold getUser, getRoomUsers, participant_count, log; simpl.
  rewrite lookup_insert_eq; simpl. rewrite map_get_set, decide_True by done.
  split; [done|]. split; [done|]. split; [done|]. split; [|split; [|split]].
  - intros s' Hne. rewrite map_get_set, decide_False by done.
    by destruct (rooms st !! r).
  - intros r' Hne. unfold getRoomUsers; simpl. by rewrite lookup_insert_ne.
  - unfold getRoomUsers; simpl. rewrite lookup_insert_eq. cbn [users].
    unfold map_values. rewrite !length_map, map_set_length.
    destruct (rooms st !! r) as [room|]; simpl; [|done].
    rewrite length_map. by destruct (map_get s (users room)).
  - by destruct (rooms st !! r).
Qed.

(** What [getRoomCursors] copies: every entry of the table but the one
    under ["__proto__"], which becomes the prototype. *)
Lemma getRoomCursors_copy roomId st :
  own (getRoomCursors roomId st)
  = match rooms st !! roomId with
    | Some room => delete "__proto__"%string (cursors room)
    | None => ∅
    end
  /\ prototype (getRoomCursors roomId st)
     = match rooms st !! roomId with
       | Some room => cursors room !! "__proto__"%string
       | None => None
       end.
Proof.
  unfold getRoomCursors. destruct (rooms st !! roomId) as [room|]; [|done].
  apply (map_fold_weak_ind
           (fun o m => own o = delete "__proto__"%string m
                       /\ prototype o = m !! "__proto__"%string)).
  - by rewrite delete_empty.
  - intros k c m o Hk [Hown Hproto]. unfold assign. case_decide as Hkey; simpl.
    + subst k. by rewrite delete_insert_eq, lookup_insert_eq.
    + rewrite delete_insert_ne, lookup_insert_ne by done. by rewrite Hown.
Qed.

Lemma removeUserFromRoom_cursor roomId socketId st room' :
  rooms (removeUserFromRoom roomId socketId st).2 !! roomId = Some room' ->
  cursors room' !! socketId = None.
Proof.
  destruct (rooms st !! roomId) as [room|] eqn:Hr.
  - rewrite (removeUserFromRoom_present _ _ _ _ Hr). cbn [snd]. simpl.
    case_decide.
    + by rewrite lookup_delete_eq.
    + rewrite lookup_insert_eq. intros [= <-]. simpl. apply lookup_delete_eq.
  - unfold removeUserFromRoom. rewrite Hr. simpl. by rewrite Hr.
Qed.

(** X5: [removeUserFromRoom] returns the user [getUser] would have found
    and leaves neither the user nor a cursor of the socket in the room:
    the object [getRoomCursors] returns has no property of the socket's
    id, nor the prototype that a cursor under ["__proto__"] would be; the
    users of the other sockets are still found (the room goes only when
    there is none), and the log of the room is kept as long as the room
    is. *)
Theorem removed_user_is_gone :
  forall (st : Store) (roomId socketId : string),
    let removed := removeUserFromRoom roomId socketId st in
    removed.1 = getUser roomId socketId st
    /\ getUser roomId socketId removed.2 = None
    /\ (own (getRoomCursors roomId removed.2) !! socketId = None
        /\ (socketId = "__proto__"%string ->
            prototype (getRoomCursors roomId removed.2) = None))
    /\ (forall other, other <> socketId ->
          getUser roomId other removed.2 = getUser roomId other st)
    /\ (is_Some (rooms removed.2 !! roomId) ->
          log roomId removed.2 = log roomId st)
    /\ (is_Some (rooms removed.2 !! roomId)
        <-> 0 < participant_count roomId removed.2).
Proof.
  intros st r s removed.
  assert (own (getRoomCursors r removed.2) !! s = None
          /\ (s = "__proto__"%string ->
              prototype (getRoomCursors r removed.2) = None)) as Hcursors.
  { destruct (getRoomCursors_copy r removed.2) as [-> ->].
    pose proof (removeUserFromRoom_cursor r s st) as Hgone.
    fold removed in Hgone.
    destruct (rooms removed.2 !! r) as [room'|]; [|done].
    specialize (Hgone room' eq_refl). split.
    - apply lookup_delete_None. by right.
    - by intros <-. }
  revert Hcursors. unfold removed. clear removed. intros Hcursors.
  split; [|split; [|split; [exact Hcursors|]]]; clear Hcursors.
  all: destruct (rooms st !! r) as [room|] eqn:Hr.
  all: try (rewrite (removeUserFromRoom_present _ _ _ _ Hr); cbn [fst snd];
            unfold participant_count, getUser, getRoomUsers, log;
            simpl; rewrite ?Hr).
  all: try (unfold removeUserFromRoom, participant_count, getUser,
              getRoomUsers, log; rewrite Hr; simpl; rewrite ?Hr).
  - done.
  - done.
  - case_decide as Hempty.
    + by rewrite lookup_delete_eq.
    + rewrite lookup_insert_eq; simpl. rewrite map_get_delete.
      by rewrite decide_True.
  - done.
  - case_decide as Hempty.
    + rewrite lookup_delete_eq. repeat split; try done.
      * intros s' Hne. symmetry.
        apply (map_delete_empty s s' _ Hempty). congruence.
      * simpl. lia.
    + rewrite lookup_insert_eq; simpl.
      repeat split; try done.
      * intros s' Hne. rewrite map_get_delete. by rewrite decide_False.
      * intros _. unfold map_values. rewrite length_map.
        destruct (map_delete s (users room)); [done|simpl; lia].
  - repeat split; try done; try by intros [? ?]. simpl. lia.
Qed.

Lemma added_user_is_found_witness :
  getUser "r1" "B" (addUserToRoom "r1" "A" None 5 (store shared_process)).2
  = getUser "r1" "B" (store shared_process).
Proof.
  apply (proj1 (proj2 (proj2 (proj2
           (added_user_is_found (store shared_process) "r1" "A" None 5))))).
  discriminate.
Defined.

Lemma removed_user_is_gone_witness :
  getUser "r1" "B" (removeUserFromRoom "r1" "A" (store shared_process)).2
  = getUser "r1" "B" (store shared_process)
  /\ log "r1" (removeUserFromRoom "r1" "A" (store shared_process)).2
     = log "r1" (store shared_process).
Proof.
  split.
  - apply (proj1 (proj2 (proj2 (proj2
             (removed_user_is_gone (store shared_process) "r1" "A"))))).
    discriminate.
  - apply (proj1 (proj2 (proj2 (proj2 (proj2
             (removed_user_is_gone (store shared_process) "r1" "A")))))).
    vm_compute. eexists. reflexivity.
Defined.

(** ** Cursors *)

(** X6: in a registered room, [updateCursor] followed by [getRoomCursors]
    shows the position just written for the socket, with the time of the
    write, whatever was there before, as a property of the object returned;
    but for the socket id ["__proto__"], whose cursor is no property of the
    object and becomes its prototype.  The properties under the other ids,
    the users and the log of the room are untouched.  The socket need not
    be a participant of the room. *)
Theorem cursor_written_is_read :
  forall (st : Store) (roomId socketId : string) (cx cy : float) (now : Z),
    is_Some (rooms st !! roomId) ->
    let st' := updateCursor roomId socketId cx cy now st in
    (socketId <> "__proto__"%string ->
       own (getRoomCursors roomId st') !! socketId
       = Some (mkCursor cx cy now)
       /\ prototype (getRoomCursors roomId st')
          = prototype (getRoomCursors roomId st))
    /\ (socketId = "__proto__"%string ->
          own (getRoomCursors roomId st') !! socketId = None
          /\ prototype (getRoomCursors roomId st')
             = Some (mkCursor cx cy now))
    /\ (forall other, other <> socketId ->
          own (getRoomCursors roomId st') !! other
          = own (getRoomCursors roomId st) !! other)
    /\ getRoomUsers roomId st' = getRoomUsers roomId st
    /\ log roomId st' = log roomId st
    /\ operationIdCounter st' = operationIdCounter st.
Proof.
  intros st r s cx cy now [room Hr] st'.
  destruct (getRoomCursors_copy r st') as [-> ->].
  destruct (getRoomCursors_copy r st) as [-> ->].
  unfold st', updateCursor. rewrite Hr.
  unfold getRoomUsers, log, put_room; simpl.
  rewrite lookup_insert_eq, Hr; simpl.
  split; [|split; [|split; [|done]]].
  - intros Hne. rewrite lookup_delete_ne, lookup_insert_eq by done.
    by rewrite lookup_insert_ne.
  - intros ->. by rewrite lookup_delete_eq, lookup_insert_eq.
  - intros s' Hne.
    destruct (decide (s' = "__proto__"%string)) as [->|Hkey].
    + by rewrite !lookup_delete_eq.
    + rewrite !lookup_delete_ne by done. by rewrite lookup_insert_ne.
Qed.

Lemma cursor_written_is_read_witness :
  own (getRoomCursors "r1"
         (updateCursor "r1" "Z" 3 4 7 (store shared_process))) !! "Z"%string
  = Some (mkCursor 3 4 7)
  /\ own (getRoomCursors "r1"
            (updateCursor "r1" "__proto__" 3 4 7 (store shared_process)))
       !! "__proto__"%string
     = None.
Proof.
  split.
  - apply (proj1 (cursor_written_is_read (store shared_process) "r1" "Z"
                    3 4 7 ltac:(vm_compute; eexists; reflexivity))).
    discriminate.
  - apply (proj1 (proj2 (cursor_written_is_read (store shared_process) "r1"
                           "__proto__" 3 4 7
                           ltac:(vm_compute; eexists; reflexivity)))).
    reflexivity.
Defined.

(** ** Clearing and counting *)




(** ** Undo is a stack *)

Lemma undo_times_spec n : forall roomId st,
  (undo_times n roomId st).1
  = map Some (rev (skipn (length (log roomId st) - n) (log roomId st)))
    ++ repeat None (n - length (log roomId st))
  /\ log roomId (undo_times n roomId st).2
     = firstn (length (log roomId st) - n) (log roomId st).
Proof.
  induction n as [|n IH]; intros r st.
  - simpl. rewrite Nat.sub_0_r, skipn_all, firstn_all. by split.
  - cbn [undo_times].
    destruct (undoOperation_spec r st) as (Hret & Hlog & _).
    destruct (undoOperation r st) as [ret st1]. cbn [fst snd] in *.
    specialize (IH r st1). destruct (undo_times n r st1) as [res st2].
    cbn [fst snd] in *. rewrite Hlog in IH. destruct IH as [IHres IHlog].
    rewrite IHres, IHlog, Hret.
    destruct (log r st) as [|o l _] using rev_ind.
    + simpl. by rewrite Nat.sub_0_r.
    + rewrite removelast_last, last_snoc, length_app. simpl.
      replace (length l + 1 - S n) with (length l - n) by lia.
      replace (S n - (length l + 1)) with (n - length l) by lia.
      rewrite skipn_app, firstn_app.
      replace (length l - n - length l) with 0 by lia. simpl.
      by rewrite rev_unit, app_nil_r.
Qed.

Lemma commit_all_log cs : forall st roomId,
  log roomId (commit_all cs st).2
  = log roomId st ++ committed_to roomId (commit_all cs st).1.
Proof.
  induction cs as [|c cs IH]; intros st r; simpl.
  - by rewrite app_nil_r.
  - pose proof (addOperation_log (commit_room c) (commit_user c)
                  (commit_data c) (commit_now c) st) as Hsame.
    pose proof (addOperation_log_ne (commit_room c) r (commit_user c)
                  (commit_data c) (commit_now c) st) as Hother.
    destruct (addOperation _ _ _ _ st) as [operation st1]; simpl in *.
    specialize (IH st1 r). destruct (commit_all cs st1) as [done st2].
    simpl in *. rewrite IH. unfold committed_to; simpl. case_decide as Hr.
    + subst r. by rewrite Hsame, <- app_assoc.
    + by rewrite Hother.
Qed.

Lemma commit_all_same_room cs roomId : forall st,
  Forall (fun c => commit_room c = roomId) cs ->
  committed_to roomId (commit_all cs st).1 = map snd (commit_all cs st).1
  /\ length (commit_all cs st).1 = length cs.
Proof.
  induction cs as [|c cs IH]; intros st Hall; simpl; [done|].
  apply Forall_cons in Hall as [Hc Hall].
  destruct (addOperation _ _ _ _ st) as [operation st1].
  specialize (IH st1 Hall). destruct (commit_all cs st1) as [done st2].
  simpl in *. destruct IH as [IH1 IH2]. unfold committed_to in *; simpl.
  rewrite decide_True by done. by rewrite IH1, IH2.
Qed.

(** X8: [n] undos in a row pop the last [n] operations of the room's log
    and return them last first, then [null] once the log is empty; the log
    keeps its first operations in their order.  So as many undos as there
    were commits into a room return those commits in reverse order and give
    back the log from before them. *)
Theorem undo_is_a_stack :
  (forall (n : nat) (roomId : string) (st : Store),
     let ops := (getOperations roomId st).1 in
     (undo_times n roomId st).1
     = map Some (rev (skipn (length ops - n) ops))
       ++ repeat None (n - length ops)
     /\ (getOperations roomId (undo_times n roomId st).2).1
        = firstn (length ops - n) ops)
  /\ (forall (cs : list Commit) (roomId : string) (st : Store),
        Forall (fun c => commit_room c = roomId) cs ->
        let committed := commit_all cs st in
        let undone := undo_times (length cs) roomId committed.2 in
        undone.1 = map Some (rev (map snd committed.1))
        /\ (getOperations roomId undone.2).1 = (getOperations roomId st).1).
Proof.
  split.
  - intros n r st ops. unfold ops. rewrite !getOperations_log.
    apply undo_times_spec.
  - intros cs r st Hall committed undone. rewrite !getOperations_log.
    destruct (undo_times_spec (length cs) r committed.2) as [Hres Hlog].
    fold undone in Hres, Hlog.
    destruct (commit_all_same_room cs r st Hall) as [Hto Hlen].
    fold committed in Hto, Hlen.
    unfold committed in Hres, Hlog. rewrite commit_all_log in Hres, Hlog.
    fold committed in Hres, Hlog. rewrite Hto in Hres, Hlog.
    rewrite length_app, length_map, Hlen in Hres, Hlog.
    replace (length (log r st) + length cs - length cs)
      with (length (log r st)) in Hres, Hlog by lia.
    replace (length cs - (length (log r st) + length cs)) with 0 in Hres
      by lia.
    rewrite skipn_app, skipn_all, Nat.sub_diag in Hres. simpl in Hres.
    rewrite app_nil_r in Hres.
    rewrite firstn_app, firstn_all, Nat.sub_diag in Hlog. simpl in Hlog.
    rewrite app_nil_r in Hlog. by split.
Qed.

Lemma undo_is_a_stack_witness :
  (undo_times 2 "r1" (commit_all two_commits initial_store).2).1
  = map Some (rev (map snd (commit_all two_commits initial_store).1))
  /\ (getOperations "r1"
        (undo_times 2 "r1" (commit_all two_commits initial_store).2).2).1
     = (getOperations "r1" initial_store).1.
Proof.
  apply (proj2 undo_is_a_stack two_commits "r1"%string initial_store).
  repeat constructor.
Defined.

(** ** Colors *)

Lemma getRoom_colorIndex roomId st :
  colorIndex (getRoom roomId st).2 = colorIndex st.
Proof. unfold getRoom. by destruct (rooms st !! roomId). Qed.

Lemma addOperation_colorIndex roomId userId data now st :
  colorIndex (addOperation roomId userId data now st).2 = colorIndex st.
Proof.
  unfold addOperation. pose proof (getRoom_colorIndex roomId st) as H.
  by destruct (getRoom roomId st).
Qed.

Lemma undoOperation_colorIndex roomId st :
  colorIndex (undoOperation roomId st).2 = colorIndex st.
Proof.
  unfold undoOperation. pose proof (getRoom_colorIndex roomId st) as H.
  destruct (getRoom roomId st); simpl in *. by case_match.
Qed.

Lemma removeUserFromRoom_colorIndex roomId socketId st :
  colorIndex (removeUserFromRoom roomId socketId st).2 = colorIndex st.
Proof.
  unfold removeUserFromRoom. destruct (rooms st !! roomId); [|done].
  by case_match.
Qed.

(** A turn of the event loop either announces no user and leaves the palette
    index, or announces one user with the palette color at the index and
    moves the index on. *)
Lemma step_colors p e :
  (joined_colors (step p e).2 = []
   /\ colorIndex (store (step p e).1) = colorIndex (store p))
  \/ (joined_colors (step p e).2
      = [ nth (colorIndex (store p) mod length USER_COLORS) USER_COLORS
              ""%string ]
      /\ colorIndex (store (step p e).1) = S (colorIndex (store p))).
Proof.
  event_cases p e; try (by left).
  - rewrite handle_join_room_spec. cbn -[nth Nat.modulo].
    right. rewrite addUserToRoom_spec. cbn -[nth Nat.modulo].
    split; [done|lia].
  - pose proof (addOperation_colorIndex r1 s d now (store p)) as H.
    destruct (addOperation r1 s d now (store p)) as [o st1]. by left.
  - pose proof (undoOperation_colorIndex r1 (store p)) as H.
    destruct (undoOperation r1 (store p)) as [[o|] st1]; by left.
  - left. split; [done|]. unfold updateCursor.
    by destruct (rooms (store p) !! r1).
  - pose proof (removeUserFromRoom_colorIndex r1 s (store p)) as H.
    destruct (removeUserFromRoom r1 s (store p)) as [u st1]. by left.
Qed.

Lemma palette_from_S first n :
  palette_from first (S n)
  = nth (first mod length USER_COLORS) USER_COLORS ""%string
    :: palette_from (S first) n.
Proof.
  unfold palette_from. cbn [seq map]. rewrite Nat.add_0_r. f_equal.
  rewrite <- seq_shift, map_map. apply map_ext. intros k.
  by rewrite Nat.add_succ_r.
Qed.

Lemma run_colors events : forall p,
  joined_colors (run p events).2
  = palette_from (colorIndex (store p))
                 (length (joined_colors (run p events).2)).
Proof.
  induction events as [|e events IH]; intros p; cbn [run]; [done|].
  pose proof (step_colors p e) as Hstep.
  destruct (step p e) as [p1 out1]. specialize (IH p1).
  destruct (run p1 events) as [p2 out2]. cbn [fst snd] in *.
  unfold joined_colors in *. rewrite omap_app, length_app.
  destruct Hstep as [[-> Hc]|[-> Hc]]; rewrite Hc in IH.
  - done.
  - cbn [length Nat.add app]. rewrite palette_from_S. by f_equal.
Qed.

(** X9: the colors are dealt round robin, by one index for the whole
    process: along any run, the users announced by [user_joined] get the
    palette colors at the index the process starts with, the next, and so
    on, cyclically, whatever their rooms; every color is one of the fifteen
    of the palette, and the users fifteen joins apart get the same. *)
Theorem colors_go_round_robin :
  forall (p : Process) (events : list Event),
    let colors := joined_colors (run p events).2 in
    colors = palette_from (colorIndex (store p)) (length colors)
    /\ Forall (fun c => In c USER_COLORS) colors
    /\ forall k c, colors !! (k + length USER_COLORS) = Some c ->
                   colors !! k = Some c.
Proof.
  intros p events colors. pose proof (run_colors events p) as Hrun.
  fold colors in Hrun. split; [done|]. rewrite Hrun.
  set (n := length colors). set (first := colorIndex (store p)).
  clearbody n first. clear. split.
  - apply Forall_forall. intros c Hc. unfold palette_from in Hc.
    apply list_elem_of_In, in_map_iff in Hc as (k & <- & _).
    apply nth_In. apply Nat.mod_upper_bound. discriminate.
  - unfold palette_from. generalize (length USER_COLORS). intros m k c.
    rewrite !list_lookup_fmap. intros Hk.
    destruct (seq 0 n !! (k + m)) as [i|] eqn:Hi; [|discriminate].
    apply lookup_seq in Hi as [-> Hlt]. cbn -[nth] in Hk.
    injection Hk as <-.
    rewrite (lookup_seq_lt 0 n k) by lia. cbn -[nth]. do 2 f_equal.
    replace (first + (k + m)) with (first + k + 1 * m) by lia.
    by rewrite Nat.Div0.mod_add.
Qed.

Lemma colors_go_round_robin_witness :
  joined_colors (run initial sixteen_joins).2 !! 0 = Some "#FF6B6B"%string.
Proof.
  apply (proj2 (proj2 (colors_go_round_robin initial sixteen_joins)) 0).
  vm_compute. reflexivity.
Defined.

(** ** Participants that outlive their socket *)

Lemma step_join_spec p socketId roomId given now currentRoom :
  sockets p !! socketId = Some currentRoom ->
  let room := default new_room (rooms (store p) !! roomId) in
  let user := (addUserToRoom roomId socketId given now (store p)).1 in
  (step p (on_join_room socketId roomId given now)).1
  = mkProcess
      (mkStore (<[roomId := mkRoom (map_set socketId user (users room))
                                   (operations room) (cursors room)]>
                  (rooms (store p)))
               (colorIndex (store p) + 1) (operationIdCounter (store p)))
      (<[socketId := Some roomId]> (sockets p)).
Proof.
  intros Hs. cbn [step]. unfold deliver. rewrite Hs.
  by rewrite handle_join_room_spec.
Qed.

Lemma getUser_participant roomId socketId st :
  is_Some (getUser roomId socketId st) -> 0 < participant_count roomId st.
Proof.
  unfold getUser, participant_count, getRoomUsers.
  destruct (rooms st !! roomId) as [room|]; [|by intros [? ?]].
  intros [u Hu]. unfold map_values. rewrite length_map.
  destruct (users room); [discriminate|simpl; lia].
Qed.

(** X10: a socket is removed from the room it joined last, and from no
    other.  When a connected socket joins one room, then another, and
    disconnects, it stays a participant of the first room, which stays
    registered; the same holds for a socket that joined under the empty
    room id, whose disconnect removes nothing. *)
Theorem participants_outlive_their_socket :
  (forall (p : Process) (socketId first second : string)
          (given1 given2 : option string) (now1 now2 : Z) currentRoom,
     sockets p !! socketId = Some currentRoom ->
     first <> second ->
     let after :=
       run p [ on_join_room socketId first given1 now1;
               on_join_room socketId second given2 now2;
               on_disconnect socketId ] in
     sockets after.1 !! socketId = None
     /\ is_Some (getUser first socketId (store after.1))
     /\ 0 < participant_count first (store after.1))
  /\ (forall (p : Process) (socketId : string) (given : option string)
             (now : Z) currentRoom,
        sockets p !! socketId = Some currentRoom ->
        let after :=
          run p [ on_join_room socketId "" given now;
                  on_disconnect socketId ] in
        sockets after.1 !! socketId = None
        /\ is_Some (getUser "" socketId (store after.1))
        /\ 0 < participant_count "" (store after.1)).
Proof.
  split.
  - intros p s r1 r2 g1 g2 n1 n2 c Hs Hne after.
    assert (sockets after.1 !! s = None
            /\ is_Some (getUser r1 s (store after.1))) as [Hgone Hin];
      [|split; [done|split; [done|by eapply getUser_participant]]].
    unfold after. cbn [run].
    pose proof (step_join_spec p s r1 g1 n1 c Hs) as H1.
    destruct (step p (on_join_room s r1 g1 n1)) as [p1 out1].
    cbn [fst] in H1.
    assert (sockets p1 !! s = Some (Some r1)) as Hs1.
    { rewrite H1; simpl. apply lookup_insert_eq. }
    assert (is_Some (getUser r1 s (store p1))) as Hin1.
    { rewrite H1. unfold getUser; simpl. rewrite lookup_insert_eq; simpl.
      rewrite map_get_set. by rewrite decide_True. }
    clear H1. pose proof (step_join_spec p1 s r2 g2 n2 _ Hs1) as H2.
    destruct (step p1 (on_join_room s r2 g2 n2)) as [p2 out2].
    cbn [fst] in H2.
    assert (sockets p2 !! s = Some (Some r2)) as Hs2.
    { rewrite H2; simpl. apply lookup_insert_eq. }
    assert (is_Some (getUser r1 s (store p2))) as Hin2.
    { rewrite H2. unfold getUser in *; simpl.
      by rewrite lookup_insert_ne by done. }
    clear H2. destruct (step_disconnect_spec p2 s) as [Hsock Hstore].
    destruct (step p2 (on_disconnect s)) as [p3 out3]. cbn [fst snd] in *.
    split; [rewrite Hsock; apply lookup_delete_eq|].
    destruct Hstore as [[-> _]|(r & Hr & -> & _)]; [done|].
    rewrite Hs2 in Hr. injection Hr as <-. unfold getUser in *.
    by rewrite removeUserFromRoom_lookup_ne.
  - intros p s g now c Hs after.
    assert (sockets after.1 !! s = None
            /\ is_Some (getUser "" s (store after.1))) as [Hgone Hin];
      [|split; [done|split; [done|by eapply getUser_participant]]].
    unfold after. cbn [run].
    pose proof (step_join_spec p s "" g now c Hs) as H1.
    destruct (step p (on_join_room s "" g now)) as [p1 out1].
    cbn [fst] in H1.
    assert (sockets p1 !! s = Some (Some ""%string)) as Hs1.
    { rewrite H1; simpl. apply lookup_insert_eq. }
    assert (is_Some (getUser "" s (store p1))) as Hin1.
    { rewrite H1. unfold getUser; simpl. rewrite lookup_insert_eq; simpl.
      rewrite map_get_set. by rewrite decide_True. }
    clear H1.
    rewrite (step_outside p1 (on_disconnect s) _ Hs1 eq_refl). simpl.
    split; [apply lookup_delete_eq|done].
Qed.

Lemma participants_outlive_their_socket_witness :
  sockets (run (run initial [on_connection "A"%string]).1 room_switch).1
    !! "A"%string = None
  /\ is_Some (getUser "r1" "A"
                (store (run (run initial [on_connection "A"%string]).1
                            room_switch).1))
  /\ 0 < participant_count "r1"
           (store (run (run initial [on_connection "A"%string]).1
                       room_switch).1).
Proof.
  apply (proj1 participants_outlive_their_socket
           (run initial [on_connection "A"%string]).1 "A"%string "r1"%string
           "r2"%string None None 1%Z 2%Z None); [reflexivity|discriminate].
Defined.

(** ** The ids in the logs *)

Lemma updateCursor_log roomId socketId cx cy now st r :
  log r (updateCursor roomId socketId cx cy now st) = log r st.
Proof.
  unfold updateCursor, log. destruct (rooms st !! roomId) as [room|] eqn:Hr;
    [|done].
  unfold put_room; simpl. destruct (decide (roomId = r)) as [<-|Hne].
  - by rewrite lookup_insert_eq, Hr.
  - by rewrite lookup_insert_ne.
Qed.

Lemma removeUserFromRoom_log roomId socketId st r :
  log r (removeUserFromRoom roomId socketId st).2 `prefix_of` log r st.
Proof.
  unfold log. destruct (rooms st !! roomId) as [room|] eqn:Hr.
  - rewrite (removeUserFromRoom_present _ _ _ _ Hr); simpl.
    destruct (decide (roomId = r)) as [<-|Hne]; case_decide.
    + rewrite lookup_delete_eq. apply prefix_nil.
    + by rewrite lookup_insert_eq, Hr.
    + by rewrite lookup_delete_ne.
    + by rewrite lookup_insert_ne.
  - unfold removeUserFromRoom. by rewrite Hr.
Qed.

Lemma addUserToRoom_log roomId socketId given now st r :
  log r (addUserToRoom roomId socketId given now st).2 = log r st.
Proof.
  rewrite addUserToRoom_spec. unfold log; simpl.
  destruct (decide (roomId = r)) as [<-|Hne].
  - rewrite lookup_insert_eq. by destruct (rooms st !! roomId).
  - by rewrite lookup_insert_ne.
Qed.

Lemma handle_join_room_logs socketId roomId given now currentRoom st :
  let handled := handle_join_room socketId roomId given now currentRoom st in
  operationIdCounter handled.1.2 = operationIdCounter st
  /\ forall r, log r handled.1.2 = log r st.
Proof.
  rewrite handle_join_room_spec. cbn -[nth Nat.modulo]. split; [done|].
  intros r. unfold log; cbn -[nth Nat.modulo].
  destruct (decide (roomId = r)) as [<-|Hne].
  - rewrite lookup_insert_eq. by destruct (rooms st !! roomId).
  - by rewrite lookup_insert_ne.
Qed.

Lemma removelast_prefix {A : Type} (l : list A) : removelast l `prefix_of` l.
Proof.
  destruct l as [|x l _] using rev_ind; [done|].
  rewrite removelast_last. by apply prefix_app_r.
Qed.

(** What a turn of the event loop does to the logs: it leaves the counter
    and takes operations off the end of logs, or it commits one operation
    of type ["draw"] under the next id at the end of one log. *)
Lemma step_logs p e :
  (operationIdCounter (store (step p e).1) = operationIdCounter (store p)
   /\ forall r, log r (store (step p e).1) `prefix_of` log r (store p))
  \/ (exists roomId o,
        id o = (operationIdCounter (store p) + 1)%Z
        /\ type o = "draw"%string
        /\ operationIdCounter (store (step p e).1)
           = (operationIdCounter (store p) + 1)%Z
        /\ log roomId (store (step p e).1) = log roomId (store p) ++ [o]
        /\ forall r, r <> roomId ->
             log r (store (step p e).1) = log r (store p)).
Proof.
  event_cases p e; try (by left).
  - pose proof (handle_join_room_logs s r0 g now c (store p)) as [Hc Hlog].
    destruct (handle_join_room s r0 g now c (store p)) as [[c' st'] out].
    left. split; [done|]. intros r. cbn [fst snd store] in *.
    by rewrite Hlog.
  - right.
    pose proof (addOperation_id r1 s d now (store p)) as [Hid Hcounter].
    pose proof (addOperation_log r1 s d now (store p)) as Hlog.
    pose proof (fun r => addOperation_log_ne r1 r s d now (store p)) as Hne.
    assert (type (addOperation r1 s d now (store p)).1 = "draw"%string)
      as Htype.
    { unfold addOperation. by destruct (getRoom r1 (store p)). }
    destruct (addOperation r1 s d now (store p)) as [o st1].
    cbn [fst snd] in *. exists r1, o. repeat split; try done.
    intros r Hr. apply Hne. congruence.
  - left.
    pose proof (undoOperation_counter r1 (store p)) as Hcounter.
    destruct (undoOperation_spec r1 (store p)) as (_ & Hlog & Hframe).
    assert (forall r, log r (undoOperation r1 (store p)).2
                      `prefix_of` log r (store p)) as Hpre.
    { intros r. destruct (decide (r1 = r)) as [<-|Hne].
      - rewrite Hlog. apply removelast_prefix.
      - by rewrite (log_lookup_ext r (store p)) by auto. }
    destruct (undoOperation r1 (store p)) as [[o|] st1]; by split.
  - left. split; [apply updateCursor_counter|].
    intros r. by rewrite updateCursor_log.
  - left.
    pose proof (removeUserFromRoom_counter r1 s (store p)) as Hcounter.
    pose proof (removeUserFromRoom_log r1 s (store p)) as Hlog.
    destruct (removeUserFromRoom r1 s (store p)) as [u st1]. by split.
Qed.

Lemma strongly_sorted_snoc {A : Type} (R : relation A) (l : list A) (x : A) :
  StronglySorted R l -> Forall (fun y => R y x) l ->
  StronglySorted R (l ++ [x]).
Proof.
  induction 1 as [|y l Hsorted IH Hall]; intros Hx; simpl.
  - repeat constructor.
  - apply Forall_cons in Hx as [Hy Hx]. constructor; [by apply IH|].
    apply Forall_app. split; [done|by repeat constructor].
Qed.

Lemma strongly_sorted_app_l {A : Type} (R : relation A) (l1 l2 : list A) :
  StronglySorted R (l1 ++ l2) -> StronglySorted R l1.
Proof.
  induction l1 as [|y l1 IH]; simpl; intros Hsorted; [constructor|].
  apply StronglySorted_inv in Hsorted as [Hsorted Hall].
  constructor; [by apply IH|]. by apply Forall_app in Hall as [Hall _].
Qed.

Lemma sorted_ids_snoc (ops : list Operation) (o : Operation) (bound : Z) :
  StronglySorted Z.lt (log_ids ops) ->
  Forall (fun o' => (id o' <= bound)%Z) ops ->
  (bound < id o)%Z ->
  StronglySorted Z.lt (log_ids (ops ++ [o])).
Proof.
  intros Hsorted Hbound Hnew. unfold log_ids in *. rewrite map_app.
  apply strongly_sorted_snoc; [done|].
  apply Forall_forall. intros i Hi.
  apply list_elem_of_In, in_map_iff in Hi as (o1 & <- & Ho1).
  rewrite Forall_forall in Hbound. apply list_elem_of_In, Hbound in Ho1. lia.
Qed.

Lemma sorted_ids_prefix (l1 l2 : list Operation) :
  l1 `prefix_of` l2 ->
  StronglySorted Z.lt (log_ids l2) -> StronglySorted Z.lt (log_ids l1).
Proof.
  intros [k ->]. unfold log_ids. rewrite map_app.
  apply strongly_sorted_app_l.
Qed.

Lemma step_logs_well_formed p e :
  logs_well_formed (store p) -> logs_well_formed (store (step p e).1).
Proof.
  intros [Hpos Hlogs].
  destruct (step_logs p e)
    as [[Hc Hpre]|(r0 & o & Hid & Htype & Hc & Hlog & Hother)];
    (split; [lia|]); intros r; destruct (Hlogs r) as [Hsorted Hall];
    rewrite Hc.
  - destruct (Hpre r) as [k Hk]. split.
    + eapply sorted_ids_prefix; [by exists k|done].
    + rewrite Hk in Hall. by apply Forall_app in Hall as [Hall _].
  - assert (Forall (fun o' => (0 < id o' <= operationIdCounter (store p) + 1)%Z
                              /\ type o' = "draw"%string) (log r (store p)))
      as Hall'.
    { eapply Forall_impl; [exact Hall|]. simpl. intros o' [? ?].
      split; [lia|done]. }
    destruct (decide (r = r0)) as [->|Hne].
    + rewrite Hlog. split.
      * apply (sorted_ids_snoc _ _ (operationIdCounter (store p)));
          [done| |lia].
        eapply Forall_impl; [exact Hall|]. simpl. intros o' [? ?]. lia.
      * apply Forall_app. split; [done|]. repeat constructor; [lia..|done].
    + rewrite (Hother r Hne). by split.
Qed.

Lemma step_logs_separate p e :
  logs_well_formed (store p) -> logs_separate (store p) ->
  logs_separate (store (step p e).1).
Proof.
  intros [Hpos Hlogs] Hsep.
  destruct (step_logs p e)
    as [[Hc Hpre]|(r0 & o & Hid & Htype & Hc & Hlog & Hother)].
  - intros r1 r2 o1 o2 H1 H2. apply Hsep.
    + destruct (Hpre r1) as [k ->]. apply in_or_app. by left.
    + destruct (Hpre r2) as [k ->]. apply in_or_app. by left.
  - assert (forall r o', In o' (log r (store (step p e).1)) ->
              In o' (log r (store p)) \/ (r = r0 /\ o' = o)) as Hin.
    { intros r o' Ho'. destruct (decide (r = r0)) as [->|Hne].
      - rewrite Hlog in Ho'. apply in_app_or in Ho' as [?|[<-|[]]]; auto.
      - rewrite (Hother r Hne) in Ho'. by left. }
    assert (forall r o', In o' (log r (store p)) -> id o' <> id o) as Hold.
    { intros r o' Ho'. destruct (Hlogs r) as [_ Hall].
      rewrite Forall_forall in Hall. apply list_elem_of_In, Hall in Ho'. lia. }
    intros r1 r2 o1 o2 H1 H2 Heq.
    apply Hin in H1 as [H1|[-> ->]]; apply Hin in H2 as [H2|[-> ->]].
    + by apply (Hsep r1 r2 o1 o2).
    + by apply Hold in H1.
    + symmetry in Heq. by apply Hold in H2.
    + done.
Qed.

Lemma run_logs events : forall p,
  logs_well_formed (store p) -> logs_separate (store p) ->
  logs_well_formed (store (run p events).1)
  /\ logs_separate (store (run p events).1).
Proof.
  induction events as [|e events IH]; intros p Hwf Hsep; cbn [run]; [done|].
  pose proof (step_logs_well_formed p e Hwf) as Hwf1.
  pose proof (step_logs_separate p e Hwf Hsep) as Hsep1.
  destruct (step p e) as [p1 out1]. cbn [fst] in *.
  specialize (IH p1 Hwf1 Hsep1). by destruct (run p1 events).
Qed.

Lemma logs_initial : logs_well_formed initial_store /\ logs_separate initial_store.
Proof.
  split; [split; [done|]|].
  - intros r. unfold log; simpl. rewrite lookup_empty. split; constructor.
  - intros r1 r2 o1 o2 H1. unfold log in H1; simpl in H1.
    by rewrite lookup_empty in H1.
Qed.

Lemma sorted_ids_injective (ops : list Operation) (o1 o2 : Operation) :
  StronglySorted Z.lt (log_ids ops) ->
  In o1 ops -> In o2 ops -> id o1 = id o2 -> o1 = o2.
Proof.
  induction ops as [|o ops IH]; [done|]. simpl. intros Hsorted H1 H2 Heq.
  apply StronglySorted_inv in Hsorted as [Hsorted Hall].
  rewrite Forall_forall in Hall.
  assert (forall o', In o' ops -> (id o < id o')%Z) as Hlt.
  { intros o' Ho'. apply Hall, list_elem_of_In, in_map. done. }
  destruct H1 as [<-|H1], H2 as [<-|H2]; [done| | |by apply IH].
  - apply Hlt in H2. lia.
  - apply Hlt in H1. lia.
Qed.

(** X11: in every state the process reaches, the ids in each room's log are
    strictly increasing, lie between 1 and the id counter, and every logged
    operation has type ["draw"]; an id identifies an operation: two logged
    operations with the same id are the same operation of the same room. *)
Theorem logged_ids_identify_operations :
  forall (events : list Event),
    let st := store (run initial events).1 in
    (forall roomId,
        StronglySorted Z.lt (map id (getOperations roomId st).1)
        /\ Forall (fun o => (1 <= id o <= operationIdCounter st)%Z
                            /\ type o = "draw"%string)
                  (getOperations roomId st).1)
    /\ (forall r1 r2 o1 o2,
          In o1 (getOperations r1 st).1 -> In o2 (getOperations r2 st).1 ->
          id o1 = id o2 -> r1 = r2 /\ o1 = o2).
Proof.
  intros events st.
  destruct logs_initial as [Hwf0 Hsep0].
  destruct (run_logs events initial Hwf0 Hsep0) as [[Hpos Hwf] Hsep].
  fold st in Hpos, Hwf, Hsep. split.
  - intros r. rewrite getOperations_log. destruct (Hwf r) as [Hsorted Hall].
    split; [done|]. eapply Forall_impl; [exact Hall|]. simpl.
    intros o [? ?]. split; [lia|done].
  - intros r1 r2 o1 o2. rewrite !getOperations_log. intros H1 H2 Heq.
    pose proof (Hsep r1 r2 o1 o2 H1 H2 Heq) as <-. split; [done|].
    destruct (Hwf r1) as [Hsorted _]. by eapply sorted_ids_injective.
Qed.

Lemma logged_ids_identify_operations_witness :
  ("r1" = "r1")%string /\ first_stroke = first_stroke.
Proof.
  apply (proj2 (logged_ids_identify_operations shared_room)
           "r1" "r1" first_stroke first_stroke)%string;
    [vm_compute; left; reflexivity..|reflexivity].
Defined.

(** ** The client's view of its room *)

Lemma getRoomUsers_lookup_ext roomId st st' :
  users <$> rooms st' !! roomId = users <$> rooms st !! roomId ->
  getRoomUsers roomId st' = getRoomUsers roomId st.
Proof.
  unfold getRoomUsers. intros H.
  destruct (rooms st' !! roomId), (rooms st !! roomId); simpl in H;
    try done. by injection H as ->.
Qed.

Lemma addOperation_users roomId userId data now st r :
  getRoomUsers r (addOperation roomId userId data now st).2
  = getRoomUsers r st.
Proof.
  unfold addOperation, getRoom, getRoomUsers.
  destruct (rooms st !! roomId) as [room|] eqn:Hr; simpl;
    (destruct (decide (roomId = r)) as [<-|Hne];
     [rewrite ?lookup_insert_eq, ?Hr|rewrite ?lookup_insert_ne by done];
     done).
Qed.

Lemma undoOperation_users roomId st r :
  getRoomUsers r (undoOperation roomId st).2 = getRoomUsers r st.
Proof.
  unfold undoOperation, getRoom, getRoomUsers, put_room.
  destruct (rooms st !! roomId) as [room|] eqn:Hr; simpl.
  - destruct (length (operations room) =? 0)%nat; simpl; [done|].
    destruct (decide (roomId = r)) as [<-|Hne].
    + by rewrite lookup_insert_eq, Hr.
    + by rewrite lookup_insert_ne.
  - destruct (decide (roomId = r)) as [<-|Hne].
    + by rewrite lookup_insert_eq, Hr.
    + by rewrite lookup_insert_ne.
Qed.

Lemma updateCursor_users roomId socketId cx cy now st r :
  getRoomUsers r (updateCursor roomId socketId cx cy now st)
  = getRoomUsers r st.
Proof.
  unfold updateCursor, getRoomUsers, put_room.
  destruct (rooms st !! roomId) as [room|] eqn:Hr; simpl; [|done].
  destruct (decide (roomId = r)) as [<-|Hne].
  - by rewrite lookup_insert_eq, Hr.
  - by rewrite lookup_insert_ne.
Qed.

(** Removing by id the last operation of a log with distinct ids leaves the
    others, in order. *)
Lemma filter_last_id (l : list Operation) (o : Operation) :
  StronglySorted Z.lt (log_ids (l ++ [o])) ->
  List.filter (fun op => negb (id op =? id o)%Z) (l ++ [o]) = l.
Proof.
  intros Hsorted. unfold log_ids in Hsorted. rewrite map_app in Hsorted.
  rewrite List.filter_app. simpl. rewrite Z.eqb_refl. simpl.
  rewrite app_nil_r.
  assert (Forall (fun op => (id op < id o)%Z) l) as Hall.
  { clear -Hsorted. induction l as [|x l IH]; [constructor|]. simpl in *.
    apply StronglySorted_inv in Hsorted as [Hsorted Hx].
    constructor; [|by apply IH].
    apply Forall_app in Hx as [_ Hx]. by apply Forall_cons in Hx as [Hx _]. }
  clear Hsorted. induction Hall as [|x l Hx Hall IH]; [done|]. simpl.
  destruct (Z.eqb_spec (id x) (id o)) as [Heq|Hne]; [lia|]. simpl.
  by rewrite IH.
Qed.

(** A socket that joins a room is in sync with it once it has received the
    messages of the join, whatever it showed before. *)
Lemma join_in_sync p socketId roomId given now currentRoom me a :
  sockets p !! socketId = Some currentRoom ->
  in_sync
    (received me a
       (naming socketId roomId
          (step p (on_join_room socketId roomId given now)).2))
    roomId (store (step p (on_join_room socketId roomId given now)).1).
Proof.
  intros Hs. cbn [step]. unfold deliver. rewrite Hs.
  rewrite handle_join_room_spec. cbn -[nth Nat.modulo].
  unfold naming, received, in_sync, log, getRoomUsers.
  cbn -[nth Nat.modulo]. rewrite !decide_True by done.
  cbn -[nth Nat.modulo]. by rewrite lookup_insert_eq.
Qed.

(** A turn of the event loop keeps a member of a room in sync with it, as
    long as the room is there. *)
Lemma step_in_sync p e socketId roomId me a :
  logs_well_formed (store p) ->
  stays socketId roomId e ->
  in_sync a roomId (store p) ->
  is_Some (rooms (store (step p e).1) !! roomId) ->
  in_sync (received me a (naming socketId roomId (step p e).2))
          roomId (store (step p e).1).
Proof.
  intros [_ Hwf] Hstays [Hops Husers] Hroom.
  destruct (Hwf roomId) as [Hsorted _]. clear Hwf.
  unfold in_sync, naming, received.
  revert Hroom. event_cases p e; intros Hroom; try by split.
  - (* join_room *)
    destruct (decide (s = socketId)) as [->|Hother].
    + rewrite (Hstays eq_refl).
      apply (join_in_sync p socketId roomId g now c me a) in Hs as Hjoin.
      cbn [step] in Hjoin. unfold deliver in Hjoin. by rewrite Hs in Hjoin.
    + rewrite handle_join_room_spec. cbn -[nth Nat.modulo].
      rewrite decide_False by done.
      unfold log, getRoomUsers in *. cbn -[nth Nat.modulo].
      destruct (decide (r0 = roomId)) as [->|Hne].
      * cbn -[nth Nat.modulo]. rewrite lookup_insert_eq. split; [|done].
        rewrite Hops. by destruct (rooms (store p) !! roomId).
      * cbn -[nth Nat.modulo]. by rewrite lookup_insert_ne.
  - (* draw_start *)
    repeat case_decide; by split.
  - (* draw_move *)
    repeat case_decide; by split.
  - (* draw_end *)
    pose proof (addOperation_log r1 s d now (store p)) as Hlog.
    pose proof (addOperation_log_ne r1 roomId s d now (store p)) as Hne.
    pose proof (addOperation_users r1 s d now (store p) roomId) as Hus.
    destruct (addOperation r1 s d now (store p)) as [o st1].
    cbn in *. case_decide as Hr; cbn.
    + subst r1. by rewrite Hlog, Hus, Hops, Husers.
    + by rewrite Hne, Hus.
  - (* undo *)
    destruct (undoOperation_spec r1 (store p)) as (Hret & Hlog & Hframe).
    pose proof (undoOperation_users r1 (store p) roomId) as Hus.
    destruct (undoOperation r1 (store p)) as [ret st1]. cbn [fst snd] in *.
    destruct (decide (r1 = roomId)) as [->|Hne].
    + assert (log roomId (store p) = []
              \/ exists l o, log roomId (store p) = l ++ [o]) as Hcases.
      { destruct (log roomId (store p)) using rev_ind; eauto. }
      destruct Hcases as [Hl|(l & o & Hl)]; rewrite Hl in *.
      * subst ret. cbn in *. by rewrite Hlog, Hus.
      * rewrite last_snoc in Hret. subst ret. cbn in *.
        rewrite decide_True by done. cbn.
        rewrite Hlog, Hus, removelast_last, Hops. split; [|done].
        by apply filter_last_id.
    + assert (log roomId st1 = log roomId (store p)) as Hsame.
      { apply log_lookup_ext. by apply Hframe. }
      destruct ret; cbn in *; rewrite ?decide_False by done; cbn;
        by rewrite Hsame, Hus.
  - (* cursor_move *)
    rewrite updateCursor_log, updateCursor_users.
    repeat case_decide; by split.
  - (* disconnect *)
    pose proof (removeUserFromRoom_kept r1 s (store p) roomId) as Hkept.
    pose proof (removeUserFromRoom_lookup_ne r1 roomId s (store p)) as Hne.
    destruct (removeUserFromRoom r1 s (store p)) as [u st1].
    cbn in *. destruct Hroom as [room' Hroom'].
    case_decide as Hr; cbn.
    + subst r1. split; [|done].
      destruct (Hkept _ Hroom') as (room & Hr0 & Hsame & _).
      unfold log in *. by rewrite Hroom', Hsame, Hops, Hr0.
    + unfold log, getRoomUsers in *. by rewrite Hne.
Qed.

Lemma step_keeps_socket p e socketId roomId :
  sockets p !! socketId = Some (Some roomId) ->
  stays socketId roomId e ->
  sockets (step p e).1 !! socketId = Some (Some roomId).
Proof.
  intros Hin Hstays. event_cases p e; try done.
  - destruct (decide (s = socketId)) as [->|Hne]; [congruence|].
    by rewrite lookup_insert_ne.
  - rewrite handle_join_room_spec. cbn -[nth Nat.modulo].
    destruct (decide (s = socketId)) as [->|Hne].
    + by rewrite lookup_insert_eq, (Hstays eq_refl).
    + by rewrite lookup_insert_ne.
  - by rewrite insert_id.
  - by rewrite insert_id.
  - by rewrite insert_id.
  - by rewrite insert_id.
  - destruct (addOperation r1 s d now (store p)) as [o st1]; cbn.
    by rewrite insert_id.
  - by rewrite insert_id.
  - destruct (undoOperation r1 (store p)) as [[o|] st1]; cbn;
      by rewrite insert_id.
  - by rewrite insert_id.
  - by rewrite insert_id.
  - by rewrite insert_id.
  - destruct (removeUserFromRoom r1 s (store p)) as [u st1]; cbn.
    rewrite delete_insert_eq. by rewrite lookup_delete_ne.
  - rewrite delete_insert_eq. by rewrite lookup_delete_ne.
  - by rewrite lookup_delete_ne.
Qed.

Lemma received_app me a out1 out2 socketId roomId :
  received me a (naming socketId roomId (out1 ++ out2))
  = received me (received me a (naming socketId roomId out1))
             (naming socketId roomId out2).
Proof. unfold received, naming. by rewrite omap_app, fold_left_app. Qed.

Lemma run_in_sync events socketId roomId me : forall p a,
  invariant p -> logs_well_formed (store p) ->
  sockets p !! socketId = Some (Some roomId) -> roomId <> ""%string ->
  Forall (stays socketId roomId) events ->
  in_sync a roomId (store p) ->
  in_sync (received me a (naming socketId roomId (run p events).2))
          roomId (store (run p events).1).
Proof.
  induction events as [|e events IH]; intros p a Hinv Hwf Hin Hr Hstay Hsync;
    cbn [run]; [done|].
  apply Forall_cons in Hstay as [He Hstay].
  pose proof (step_invariant p e Hinv) as Hinv1.
  pose proof (step_logs_well_formed p e Hwf) as Hwf1.
  pose proof (step_keeps_socket p e socketId roomId Hin He) as Hin1.
  assert (is_Some (rooms (store (step p e).1) !! roomId)) as Hroom.
  { destruct Hinv1 as [_ Hreg].
    destruct (Hreg socketId (Some roomId) roomId Hin1) as (room & Hroom & _).
    - simpl. by rewrite decide_False.
    - by exists room. }
  pose proof (step_in_sync p e socketId roomId me a Hwf He Hsync Hroom)
    as Hsync1.
  destruct (step p e) as [p1 out1]. cbn [fst snd] in *.
  specialize (IH p1 _ Hinv1 Hwf1 Hin1 Hr Hstay Hsync1).
  destruct (run p1 events) as [p2 out2]. cbn [fst snd] in *.
  by rewrite received_app.
Qed.

(** A socket that joins a room and stays is in sync with it once it has
    been told what names it or the room. *)
Lemma join_and_stay_in_sync before rest socketId roomId given now me a :
  let p := (run initial before).1 in
  is_Some (sockets p !! socketId) ->
  roomId <> ""%string ->
  Forall (stays socketId roomId) rest ->
  let after := run p (on_join_room socketId roomId given now :: rest) in
  in_sync (received me a (naming socketId roomId after.2))
          roomId (store after.1).
Proof.
  intros p [c Hs] Hr Hstay after. unfold after. cbn [run].
  pose proof (run_invariant before initial invariant_initial) as Hinv.
  destruct logs_initial as [Hwf0 Hsep0].
  destruct (run_logs before initial Hwf0 Hsep0) as [Hwf _].
  fold p in Hinv, Hwf.
  pose proof (join_in_sync p socketId roomId given now c me a Hs) as Hsync.
  pose proof (step_invariant p (on_join_room socketId roomId given now) Hinv)
    as Hinv1.
  pose proof (step_logs_well_formed p
                (on_join_room socketId roomId given now) Hwf) as Hwf1.
  assert (sockets (step p (on_join_room socketId roomId given now)).1
            !! socketId = Some (Some roomId)) as Hin1.
  { rewrite (step_join_spec p socketId roomId given now c Hs).
    apply lookup_insert_eq. }
  destruct (step p (on_join_room socketId roomId given now)) as [p1 out1].
  cbn [fst snd] in *.
  pose proof (run_in_sync rest socketId roomId me p1 _ Hinv1 Hwf1 Hin1 Hr
                Hstay Hsync) as Hrun.
  destruct (run p1 rest) as [p2 out2]. cbn [fst snd] in *.
  by rewrite received_app.
Qed.

(** *** Who receives what *)

Section Delivery.
Import SocketIo.
Implicit Types (adapter : gmap string (gset string)).

Lemma elem_of_in_room adapter socketId roomId :
  socketId ∈ in_room adapter roomId
  <-> roomId ∈ socket_rooms adapter socketId.
Proof.
  unfold in_room, socket_rooms. rewrite elem_of_dom. unfold is_Some.
  setoid_rewrite map_lookup_filter_Some. simpl.
  destruct (adapter !! socketId) as [joined|]; simpl.
  - split; [by intros (x & [= <-] & H)|eauto].
  - split; [by intros (x & ? & _)|set_solver].
Qed.

(** For a socket that is in the room [roomId] and, that of its own id
    apart, in no other, the emits that reach it are those that name it or
    the room, as long as none is made to the room of its own id. *)
Lemma reaches_names adapter socketId roomId e :
  roomId <> socketId ->
  roomId ∈ socket_rooms adapter socketId ->
  socket_rooms adapter socketId ⊆ {[ socketId; roomId ]} ->
  emit_room e <> Some socketId ->
  reaches adapter socketId e = names socketId roomId e.
Proof.
  intros Hne Hin Hsub Hroom. unfold reaches, names, recipients.
  assert (forall r, r <> roomId -> Some r <> Some socketId ->
                    socketId ∉ in_room adapter r) as Hout.
  { intros r Hr Hs. rewrite elem_of_in_room. intros H. apply Hsub in H.
    set_solver. }
  destruct e as [s m|r m|s r m]; simpl in *.
  - destruct (decide (s = socketId)) as [->|Hs].
    + by rewrite decide_True by set_solver.
    + by rewrite decide_False by set_solver.
  - destruct (decide (r = roomId)) as [->|Hr].
    + by rewrite decide_True by (by apply elem_of_in_room).
    + by rewrite decide_False by (by apply Hout).
  - destruct (decide (r = roomId)) as [->|Hr].
    + apply elem_of_in_room in Hin.
      destruct (decide (s = socketId)) as [->|Hs].
      * by rewrite decide_False by set_solver.
      * by rewrite decide_True by set_solver.
    + specialize (Hout r Hr Hroom).
      by rewrite decide_False by set_solver.
Qed.

Lemma adapt_keeps_rooms adapter e socketId roomId :
  stays socketId roomId e ->
  roomId ∈ socket_rooms adapter socketId ->
  socket_rooms adapter socketId ⊆ {[ socketId; roomId ]} ->
  roomId ∈ socket_rooms (adapt adapter e) socketId
  /\ socket_rooms (adapt adapter e) socketId ⊆ {[ socketId; roomId ]}.
Proof.
  intros Hstays Hin Hsub. unfold socket_rooms in *.
  destruct e as [s|s r0 g now|s d|s d|s d now|s|s cx cy now|s]; simpl in *;
    try done.
  - destruct (adapter !! s) as [joined|] eqn:Hs; [done|].
    destruct (decide (s = socketId)) as [->|Hother].
    + rewrite Hs in Hin. set_solver.
    + by rewrite lookup_insert_ne.
  - destruct (adapter !! s) as [joined|] eqn:Hs; [|done].
    destruct (decide (s = socketId)) as [->|Hother].
    + rewrite (Hstays eq_refl), lookup_insert_eq. rewrite Hs in Hin, Hsub.
      simpl in *. set_solver.
    + by rewrite lookup_insert_ne.
  - by rewrite lookup_delete_ne.
Qed.

Lemma step_connected p e socketId :
  is_Some (sockets (step p e).1 !! socketId)
  <-> match e with
      | on_connection s => s = socketId \/ is_Some (sockets p !! socketId)
      | on_disconnect s => s <> socketId /\ is_Some (sockets p !! socketId)
      | _ => is_Some (sockets p !! socketId)
      end.
Proof.
  assert (forall s c c', sockets p !! s = Some c ->
            is_Some (<[s := c']> (sockets p) !! socketId)
            <-> is_Some (sockets p !! socketId)) as Hsame.
  { intros s c c' Hs. destruct (decide (s = socketId)) as [->|Hne].
    - rewrite lookup_insert_eq, Hs. by split; eauto.
    - by rewrite lookup_insert_ne. }
  assert (forall s, is_Some (delete s (sockets p) !! socketId)
            <-> s <> socketId /\ is_Some (sockets p !! socketId)) as Hless.
  { intros s. destruct (decide (s = socketId)) as [->|Hne].
    - rewrite lookup_delete_eq. split; [by intros [? ?]|by intros [? _]].
    - rewrite lookup_delete_ne by done. naive_solver. }
  event_cases p e; eauto.
  - destruct (decide (s = socketId)) as [->|Hne].
    + rewrite Hs. split; eauto.
    + naive_solver.
  - destruct (decide (s = socketId)) as [->|Hne].
    + rewrite lookup_insert_eq. split; eauto.
    + rewrite lookup_insert_ne by done. naive_solver.
  - rewrite handle_join_room_spec. cbn -[nth Nat.modulo]. eauto.
  - destruct (addOperation r1 s d now (store p)) as [o st1]; cbn. eauto.
  - destruct (undoOperation r1 (store p)) as [[o|] st1]; cbn; eauto.
  - destruct (removeUserFromRoom r1 s (store p)) as [u st1]; cbn.
    by rewrite delete_insert_eq.
  - by rewrite delete_insert_eq.
Qed.

Lemma adapt_connected adapter e socketId :
  is_Some (adapt adapter e !! socketId)
  <-> match e with
      | on_connection s => s = socketId \/ is_Some (adapter !! socketId)
      | on_disconnect s => s <> socketId /\ is_Some (adapter !! socketId)
      | _ => is_Some (adapter !! socketId)
      end.
Proof.
  destruct e as [s|s r0 g now|s d|s d|s d now|s|s cx cy now|s]; simpl;
    try done.
  - destruct (adapter !! s) as [joined|] eqn:Hs.
    + destruct (decide (s = socketId)) as [->|Hne]; [|naive_solver].
      rewrite Hs. split; eauto.
    + destruct (decide (s = socketId)) as [->|Hne].
      * rewrite lookup_insert_eq. split; eauto.
      * rewrite lookup_insert_ne by done. naive_solver.
  - destruct (adapter !! s) as [joined|] eqn:Hs; [|done].
    destruct (decide (s = socketId)) as [->|Hne].
    + rewrite lookup_insert_eq, Hs. split; eauto.
    + by rewrite lookup_insert_ne.
  - destruct (decide (s = socketId)) as [->|Hne].
    + rewrite lookup_delete_eq. split; [by intros [? ?]|by intros [? _]].
    + rewrite lookup_delete_ne by done. naive_solver.
Qed.

Lemma run_synced events : forall p adapter,
  synced p adapter -> synced (run p events).1 (adapter_after events adapter).
Proof.
  induction events as [|e events IH]; intros p adapter Hsync; cbn [run];
    [done|].
  assert (synced (step p e).1 (adapt adapter e)) as Hsync1.
  { intros s. rewrite step_connected, adapt_connected.
    pose proof (Hsync s). destruct e; naive_solver. }
  specialize (IH _ _ Hsync1). destruct (step p e) as [p1 out1].
  cbn [fst] in IH. destruct (run p1 events) as [p2 out2]. exact IH.
Qed.

(** A room that no socket is in, and that no one joins, stays unused and
    is sent nothing. *)
Lemma unused_addressed p e roomId :
  unused roomId p -> avoids roomId e -> addressed p e <> Some roomId.
Proof.
  intros Hun Hav.
  destruct e as [s|s r0 g now|s d|s d|s d now|s|s cx cy now|s]; simpl in *;
    try done;
    destruct (sockets p !! s) as [c|] eqn:Hs; try done;
    try (intros Hc; apply truthy_Some in Hc as [-> _]; by apply (Hun s _ Hs)).
  congruence.
Qed.

Lemma step_current_room p e socketId currentRoom :
  sockets (step p e).1 !! socketId = Some currentRoom ->
  sockets p !! socketId = Some currentRoom
  \/ currentRoom = None
  \/ exists s roomId given now,
       e = on_join_room s roomId given now /\ currentRoom = Some roomId.
Proof.
  assert (forall s c, sockets p !! s = Some c ->
            <[s := c]> (sockets p) !! socketId = Some currentRoom ->
            sockets p !! socketId = Some currentRoom) as Hsame.
  { intros s c Hs. by rewrite insert_id. }
  assert (forall s, delete s (sockets p) !! socketId = Some currentRoom ->
            sockets p !! socketId = Some currentRoom) as Hless.
  { intros s H. by apply lookup_delete_Some in H as [_ H]. }
  event_cases p e; eauto.
  all: try (rewrite handle_join_room_spec; cbn -[nth Nat.modulo]).
  all: repeat match goal with
         | |- context [addOperation ?r ?s ?d ?now ?st] =>
             destruct (addOperation r s d now st) as [? ?]; cbn
         | |- context [undoOperation ?r ?st] =>
             destruct (undoOperation r st) as [[?|] ?]; cbn
         | |- context [removeUserFromRoom ?r ?s ?st] =>
             destruct (removeUserFromRoom r s st) as [? ?]; cbn
         end.
  all: rewrite ?delete_insert_eq; eauto.
  all: destruct (decide (s = socketId)) as [->|Hne];
    rewrite ?lookup_insert_eq, ?lookup_insert_ne by done; eauto.
  - intros [= <-]. eauto.
  - intros [= <-]. right. right. by exists socketId, r0, g, now.
Qed.

Lemma step_unused p e roomId :
  unused roomId p -> avoids roomId e -> unused roomId (step p e).1.
Proof.
  intros Hun Hav s c Hs.
  apply step_current_room in Hs as [Hs|[->|(s0 & r & g & now & -> & ->)]].
  - by apply (Hun s).
  - done.
  - simpl in Hav. congruence.
Qed.

Lemma run_unused events : forall p roomId,
  unused roomId p -> Forall (avoids roomId) events ->
  unused roomId (run p events).1.
Proof.
  induction events as [|e events IH]; intros p roomId Hun Hav; cbn [run];
    [done|].
  apply Forall_cons in Hav as [He Hav].
  pose proof (step_unused p e roomId Hun He) as Hun1.
  specialize (IH _ _ Hun1 Hav). destruct (step p e) as [p1 out1].
  cbn [fst] in IH. destruct (run p1 events) as [p2 out2]. exact IH.
Qed.

Lemma omap_Forall_ext {A B : Type} (f g : A -> option B) (l : list A) :
  Forall (fun x => f x = g x) l -> omap f l = omap g l.
Proof.
  induction 1 as [|x l Hx _ IH]; [done|]. cbn [omap list_omap].
  by rewrite Hx, IH.
Qed.

Lemma step_reaches_names p e adapter socketId roomId :
  roomId <> socketId ->
  roomId ∈ socket_rooms adapter socketId ->
  socket_rooms adapter socketId ⊆ {[ socketId; roomId ]} ->
  unused socketId p -> avoids socketId e ->
  omap (reaches adapter socketId) (step p e).2
  = naming socketId roomId (step p e).2.
Proof.
  intros Hne Hin Hsub Hun Hav. apply omap_Forall_ext.
  destruct (step_frame p e socketId (unused_addressed p e _ Hun Hav))
    as [_ Hquiet].
  eapply Forall_impl; [exact Hquiet|]. intros m Hm. simpl in Hm.
  by apply reaches_names.
Qed.

(** What reaches such a socket over a run are the messages that name it or
    its room. *)
Lemma inbox_names events socketId roomId : forall p adapter,
  roomId <> socketId ->
  roomId ∈ socket_rooms adapter socketId ->
  socket_rooms adapter socketId ⊆ {[ socketId; roomId ]} ->
  unused socketId p ->
  Forall (avoids socketId) events ->
  Forall (stays socketId roomId) events ->
  inbox socketId p adapter events = naming socketId roomId (run p events).2.
Proof.
  induction events as [|e events IH]; intros p adapter Hne Hin Hsub Hun Hav
    Hstay; cbn [inbox run]; [done|].
  apply Forall_cons in Hav as [He Hav].
  apply Forall_cons in Hstay as [Hs Hstay].
  destruct (adapt_keeps_rooms adapter e socketId roomId Hs Hin Hsub)
    as [Hin1 Hsub1].
  pose proof (step_reaches_names p e _ socketId roomId Hne Hin1 Hsub1 Hun He)
    as Hstep.
  pose proof (step_unused p e socketId Hun He) as Hun1.
  destruct (step p e) as [p1 out1]. cbn [fst snd] in *.
  rewrite (IH p1 _ Hne Hin1 Hsub1 Hun1 Hav Hstay), Hstep.
  destruct (run p1 events) as [p2 out2]. cbn [snd].
  unfold naming. by rewrite omap_app.
Qed.

(** X12: a client stays in sync with its room.  A connected socket that is
    in no room yet, or only in the room it joins now (and in the one of its
    own id, as every socket is), joins a room with a non-empty id in a
    process that has run any events, and then neither disconnects nor joins
    another room; no one ever joins a room named by the socket's id.  Then
    the [App] listeners applied to every message that reaches the socket,
    in order, leave the client with exactly the room's log as its
    [operations] and the room's participants as its [onlineUsers], whatever
    the other sockets do and whatever the client showed before the join.
    Its undo button is enabled exactly when the log is not empty. *)
Theorem client_view_follows_the_room :
  forall (before rest : list Event) (socketId roomId : string)
         (given : option string) (now : Z) (me : option string)
         (a : App.State),
    let p := (run initial before).1 in
    let adapter := adapter_after before no_sockets in
    is_Some (sockets p !! socketId) ->
    roomId <> ""%string ->
    roomId <> socketId ->
    socket_rooms adapter socketId ⊆ {[ socketId; roomId ]} ->
    Forall (avoids socketId) (before ++ rest) ->
    Forall (stays socketId roomId) rest ->
    let events := on_join_room socketId roomId given now :: rest in
    let after := run p events in
    let a' := received me a (inbox socketId p adapter events) in
    App.operations a' = (getOperations roomId (store after.1)).1
    /\ App.onlineUsers a' = getRoomUsers roomId (store after.1)
    /\ (App.canUndo a' = true
        <-> (getOperations roomId (store after.1)).1 <> []).
Proof.
  intros before rest s r g now me a p adapter Hs Hr Hne Hsub Hav Hstay
    events after a'.
  rewrite getOperations_log.
  assert (in_sync a' r (store after.1)) as [Hops Husers].
  { pose proof (join_and_stay_in_sync before rest s r g now me a Hs Hr Hstay)
      as Hsync.
    fold p events after in Hsync. unfold a'.
    replace (inbox s p adapter events) with (naming s r after.2); [done|].
    symmetry. unfold after, events. cbn [inbox run].
    apply Forall_app in Hav as [Hbefore Hrest].
    assert (unused s p) as Hun.
    { apply run_unused; [|done]. intros s' c. simpl.
      by rewrite lookup_empty. }
    assert (synced p adapter) as Hsynced.
    { apply run_synced. intros s'. simpl. unfold no_sockets.
      by rewrite !lookup_empty. }
    apply Hsynced in Hs as [joined Hjoined].
    assert (avoids s (on_join_room s r g now)) as Hjoin by done.
    set (adapter1 := adapt adapter (on_join_room s r g now)).
    assert (r ∈ socket_rooms adapter1 s
            /\ socket_rooms adapter1 s ⊆ {[ s; r ]}) as [Hin1 Hsub1].
    { unfold adapter1, socket_rooms in *. simpl. rewrite Hjoined in *.
      rewrite lookup_insert_eq. simpl in *. set_solver. }
    pose proof (step_reaches_names p (on_join_room s r g now) adapter1 s r
                  Hne Hin1 Hsub1 Hun Hjoin) as Hstep.
    pose proof (step_unused p (on_join_room s r g now) s Hun Hjoin) as Hun1.
    destruct (step p (on_join_room s r g now)) as [p1 out1].
    cbn [fst snd] in *.
    rewrite (inbox_names rest s r p1 adapter1 Hne Hin1 Hsub1 Hun1 Hrest
               Hstay), Hstep.
    destruct (run p1 rest) as [p2 out2]. cbn [snd].
    unfold naming. by rewrite omap_app. }
  split; [done|]. split; [done|].
  unfold App.canUndo. rewrite Hops, Nat.ltb_lt.
  destruct (log r (store after.1)); simpl; split; (lia || done).
Qed.

Lemma client_view_follows_the_room_witness :
  App.operations
    (received None App.initialState
       (inbox "A" (run initial two_connections).1
          (adapter_after two_connections no_sockets)
          (on_join_room "A" "r1" None 1 :: busy_room)))
  = (getOperations "r1" (store watched.1)).1.
Proof.
  apply (client_view_follows_the_room two_connections busy_room "A" "r1"
           None 1 None App.initialState).
  - vm_compute. eexists. reflexivity.
  - discriminate.
  - discriminate.
  - apply (bool_decide_unpack _). vm_compute. exact I.
  - repeat constructor; simpl; discriminate || done.
  - repeat constructor; simpl; discriminate || done.
Defined.

(** X18: a socket keeps the rooms it has joined.  When a socket that once
    joined one room has gone on to another, a stroke committed in the
    earlier room is still sent to it, and its client appends the operation
    to the operations it shows, which then are no longer the log of the
    room it is in. *)
Theorem earlier_rooms_still_reach_the_socket :
  forall (p : Process) (adapter : gmap string (gset string))
         (socketId other earlier current : string) (data : OperationData)
         (now : Z) (me : option string) (a : App.State),
    earlier ∈ socket_rooms adapter socketId ->
    sockets p !! socketId = Some (Some current) ->
    current <> earlier ->
    sockets p !! other = Some (Some earlier) ->
    earlier <> ""%string ->
    in_sync a current (store p) ->
    let e := on_draw_end other data now in
    let committed := (addOperation earlier other data now (store p)).1 in
    let a' := received me a (inbox socketId p adapter [e]) in
    inbox socketId p adapter [e] = [ operation_added committed ]
    /\ log current (store (step p e).1) = log current (store p)
    /\ App.operations a' = log current (store (step p e).1) ++ [ committed ]
    /\ ~ in_sync a' current (store (step p e).1).
Proof.
  intros p adapter s t r0 r1 d now me a Hin Hs Hne Ht Hr0 [Hops Hus] e
    committed a'.
  assert (step p e
          = (mkProcess (addOperation r0 t d now (store p)).2
                       (<[t := Some r0]> (sockets p)),
             [ io_to_emit r0 (operation_added committed) ])) as Hstep.
  { unfold e, committed. cbn [step]. unfold deliver, handle_draw_end.
    rewrite Ht. simpl. rewrite decide_False by done.
    by destruct (addOperation r0 t d now (store p)). }
  assert (inbox s p adapter [e] = [ operation_added committed ]) as Hinbox.
  { cbn [inbox]. rewrite Hstep. unfold e at 1. cbn [adapt omap list_omap].
    unfold reaches. cbn [recipients message].
    rewrite decide_True by (by apply elem_of_in_room). done. }
  assert (log r1 (store (step p e).1) = log r1 (store p)) as Hlog.
  { rewrite Hstep. cbn [fst store]. apply addOperation_log_ne. congruence. }
  assert (App.operations a' = log r1 (store (step p e).1) ++ [ committed ])
    as Hshown.
  { unfold a'. rewrite Hinbox, Hlog. unfold received. simpl.
    by rewrite Hops. }
  split; [done|]. split; [done|]. split; [done|].
  intros [Hops' _]. rewrite Hshown in Hops'.
  apply (f_equal length) in Hops'. rewrite length_app in Hops'. simpl in Hops'.
  lia.
Qed.

Lemma earlier_rooms_still_reach_the_socket_witness :
  inbox "A" (run initial moved_on).1 (adapter_after moved_on no_sockets)
        [ on_draw_end "B" a_stroke 4 ]
  = [ operation_added
        (addOperation "r0" "B" a_stroke 4
           (store (run initial moved_on).1)).1 ].
Proof.
  apply (proj1 (earlier_rooms_still_reach_the_socket
                  (run initial moved_on).1
                  (adapter_after moved_on no_sockets)
                  "A" "B" "r0" "r1" a_stroke 4 None
                  (App.mkState (log "r1" (store (run initial moved_on).1))
                           (getRoomUsers "r1" (store (run initial moved_on).1))
                           ∅ None [] [])
                  ltac:(apply (bool_decide_unpack _); vm_compute; exact I)
                  ltac:(reflexivity) ltac:(discriminate) ltac:(reflexivity)
                  ltac:(discriminate) ltac:(split; reflexivity)))%string.
Defined.

End Delivery.

(** ** Path simplification in general *)

Section Simplification.
Import CanvasOperations.

(** The index the loop returns is that of an interior point, unless no
    point was farther than the distance it started with. *)
Lemma farthest_index lineStart lineEnd interior : forall i acc,
  farthest lineStart lineEnd i interior acc = acc
  \/ i <= (farthest lineStart lineEnd i interior acc).2 < i + length interior.
Proof.
  induction interior as [|p rest IH]; intros i acc; simpl; [by left|].
  destruct (IH (S i)
              (if (acc.1 <? perpendicularDistance p lineStart lineEnd)%float
               then (perpendicularDistance p lineStart lineEnd, i) else acc))
    as [->|Hin].
  - destruct (acc.1 <? _)%float; [right; simpl; lia|by left].
  - right. lia.
Qed.

Lemma interior_length (points : list Point) :
  length (firstn (length points - 1 - 1) (skipn 1 points))
  = length points - 2.
Proof. rewrite length_take, length_drop. lia. Qed.

(** X13: for a tolerance that is not negative, in the sense that
    [0 > tolerance] is false, [optimizePath] returns on every input: the
    recursion is on strictly shorter slices, so fuel beyond the length of the
    path is never used up. *)
Theorem optimizePath_returns :
  forall (tolerance : float) (fuel : nat) (points : list Point),
    (tolerance <? 0)%float = false ->
    length points < fuel ->
    exists result, optimizePath fuel points tolerance = Some result.
Proof.
  intros tolerance fuel. induction fuel as [|fuel IH]; intros points Htol Hlen;
    [lia|].
  cbn [optimizePath]. destruct (length points <=? 2)%nat eqn:Hshort; [eauto|].
  apply Nat.leb_gt in Hshort.
  pose proof (farthest_index (nth 0 points origin)
                (nth (length points - 1) points origin)
                (firstn (length points - 1 - 1) (skipn 1 points)) 1
                (0%float, 0)) as Hindex.
  rewrite interior_length in Hindex.
  destruct (farthest _ _ _ _ _) as [maxDistance maxIndex].
  destruct (tolerance <? maxDistance)%float eqn:Hfar; [|eauto].
  destruct Hindex as [[= -> ->]|Hindex]; [congruence|]. cbn [snd] in Hindex.
  destruct (IH (firstn (maxIndex + 1) points) Htol) as [leftPart ->].
  { rewrite length_take. lia. }
  destruct (IH (skipn maxIndex points) Htol) as [rightPart ->].
  { rewrite length_drop. lia. }
  eauto.
Qed.

Lemma optimizePath_returns_witness :
  exists result, optimizePath 5 scenario_points 2 = Some result.
Proof.
  apply (optimizePath_returns 2 5 scenario_points); [reflexivity|simpl; lia].
Defined.

Lemma farthest_nowhere lineStart lineEnd interior : forall i,
  Forall (fun p => (0 <? perpendicularDistance p lineStart lineEnd)%float
                   = false) interior ->
  farthest lineStart lineEnd i interior (0%float, 0) = (0%float, 0).
Proof.
  induction interior as [|p rest IH]; intros i Hall; simpl; [done|].
  apply Forall_cons in Hall as [Hp Hall]. rewrite Hp. by apply IH.
Qed.

(** X14: with a negative tolerance, a path of three points or more none of
    whose interior points is away from the chord makes [optimizePath] call
    itself on the whole path again and again: the call never returns,
    whatever the fuel. *)
Theorem optimizePath_negative_tolerance_diverges :
  forall (tolerance : float) (points : list Point),
    (tolerance <? 0)%float = true ->
    2 < length points ->
    Forall (fun p =>
              (0 <? perpendicularDistance p (nth 0 points origin)
                      (nth (length points - 1) points origin))%float = false)
           (firstn (length points - 2) (skipn 1 points)) ->
    forall fuel, optimizePath fuel points tolerance = None.
Proof.
  intros tolerance points Htol Hlen Hflat fuel.
  induction fuel as [|fuel IH]; [done|]. cbn [optimizePath].
  apply Nat.leb_gt in Hlen as Hlong. rewrite Hlong.
  replace (length points - 1 - 1) with (length points - 2) by lia.
  rewrite (farthest_nowhere _ _ _ 1 Hflat), Htol.
  change (skipn 0 points) with points. rewrite IH. by case_match.
Qed.

Lemma optimizePath_negative_tolerance_diverges_witness :
  optimizePath 100 standstill (-1) = None.
Proof.
  apply (optimizePath_negative_tolerance_diverges (-1) standstill);
    [reflexivity|simpl; lia|repeat constructor].
Defined.

(** The ends of a path of two points or more. *)
Lemma path_ends (points : list Point) :
  2 <= length points ->
  [ nth 0 points origin; nth (length points - 1) points origin ]
    `sublist_of` points
  /\ head points = Some (nth 0 points origin)
  /\ last points = Some (nth (length points - 1) points origin).
Proof.
  destruct points as [|p0 rest]; simpl; [lia|]. intros Hlen.
  destruct rest as [|pe mid _] using rev_ind; simpl in Hlen; [lia|].
  rewrite Nat.sub_0_r, length_app, Nat.add_1_r. simpl.
  rewrite (nth_middle mid [] pe origin). split; [|split; [done|]].
  - apply sublist_skip. apply sublist_inserts_l. by apply sublist_skip.
  - by rewrite app_comm_cons, last_snoc.
Qed.

(** Gluing two simplified halves at their common point. *)
Lemma glue_ends {A : Type} (l r : list A) (junction : A) :
  2 <= length l -> last l = Some junction -> 1 <= length r ->
  l = removelast l ++ [junction]
  /\ head (removelast l ++ r) = head l
  /\ last (removelast l ++ r) = last r
  /\ length l - 1 + length r = length (removelast l ++ r).
Proof.
  intros Hl Hlast Hr. apply last_Some in Hlast as [l' ->].
  rewrite removelast_last, !length_app in *. simpl in Hl.
  split; [done|]. split; [|split; [|simpl; lia]].
  - destruct l'; simpl in *; [lia|done].
  - rewrite last_app. destruct r using rev_ind; [simpl in Hr; lia|].
    by rewrite last_snoc.
Qed.

(** X15: whatever [optimizePath] returns is a selection of the points of
    the path, in their order; a path of up to two points is returned as it
    is; of a longer path the first and the last point are kept, so the
    result has at least two points and no more than the path. *)
Theorem optimizePath_keeps_the_ends :
  forall (fuel : nat) (points : list Point) (tolerance : float)
         (result : list Point),
    optimizePath fuel points tolerance = Some result ->
    result `sublist_of` points
    /\ length result <= length points
    /\ (length points <= 2 -> result = points)
    /\ (2 <= length points ->
        2 <= length result
        /\ head result = head points
        /\ last result = last points).
Proof.
  intros fuel points tolerance result Hrun.
  assert (result `sublist_of` points
          /\ (length points <= 2 -> result = points)
          /\ (2 <= length points ->
              2 <= length result
              /\ head result = head points
              /\ last result = last points)) as (Hsub & Hshort & Hlong);
    [|split; [done|split; [by apply sublist_length|by split]]].
  revert points result Hrun.
  induction fuel as [|fuel IH]; intros points result Hrun; [done|].
  cbn [optimizePath] in Hrun.
  destruct (length points <=? 2)%nat eqn:Hlen.
  { injection Hrun as <-. apply Nat.leb_le in Hlen. by repeat split. }
  apply Nat.leb_gt in Hlen.
  pose proof (farthest_index (nth 0 points origin)
                (nth (length points - 1) points origin)
                (firstn (length points - 1 - 1) (skipn 1 points)) 1
                (0%float, 0)) as Hindex.
  rewrite interior_length in Hindex.
  destruct (farthest _ _ _ _ _) as [maxDistance m].
  destruct (tolerance <? maxDistance)%float.
  2: { injection Hrun as <-. destruct (path_ends points) as (? & -> & ->);
         [lia|]. split; [done|]. split; [lia|]. by intros _. }
  destruct (optimizePath fuel (firstn (m + 1) points) tolerance)
    as [leftPart|] eqn:Hleft; [|done].
  destruct (optimizePath fuel (skipn m points) tolerance)
    as [rightPart|] eqn:Hright; [|done].
  injection Hrun as <-.
  destruct (IH _ _ Hleft) as (HsubL & HshortL & HlongL).
  destruct (IH _ _ Hright) as (HsubR & HshortR & HlongR).
  rewrite length_take in HshortL, HlongL. rewrite length_drop in HshortR, HlongR.
  split; [|split; [lia|intros _]].
  - destruct Hindex as [[= _ ->]|Hindex].
    + rewrite HshortL by lia. destruct points; [done|]. exact HsubR.
    + cbn [snd] in Hindex.
      destruct (lookup_lt_is_Some_2 points m) as [pm Hpm]; [lia|].
      destruct HlongL as (HlenL & _ & HlastL); [lia|].
      replace (m + 1) with (S m) in * by lia.
      rewrite (take_S_r _ _ _ Hpm) in HsubL, HlastL.
      rewrite last_snoc in HlastL.
      destruct (glue_ends leftPart [pm] pm HlenL HlastL) as (Heq & _);
        [simpl; lia|].
      rewrite Heq in HsubL. apply sublist_app_inv_r in HsubL.
      pose proof (sublist_app _ _ _ _ HsubL HsubR) as Hglued.
      by rewrite take_drop in Hglued.
  - destruct Hindex as [[= _ ->]|Hindex].
    + rewrite HshortL by lia.
      assert (removelast (firstn (0 + 1) points) = []) as ->.
      { by destruct points. }
      simpl. apply HlongR. lia.
    + cbn [snd] in Hindex.
      destruct (lookup_lt_is_Some_2 points m) as [pm Hpm]; [lia|].
      destruct HlongL as (HlenL & HheadL & HlastL); [lia|].
      destruct HlongR as (HlenR & HheadR & HlastR); [lia|].
      replace (m + 1) with (S m) in * by lia.
      rewrite (take_S_r _ _ _ Hpm), last_snoc in HlastL.
      destruct (glue_ends leftPart rightPart pm HlenL HlastL)
        as (_ & Hhead & Hlast & Hlength); [lia|].
      rewrite Hhead, Hlast, <- Hlength, HheadL, HlastR.
      split; [lia|]. split.
      * rewrite !head_lookup. by rewrite lookup_take_lt by lia.
      * rewrite !last_lookup, length_drop, lookup_drop. f_equal. lia.
Qed.

Lemma optimizePath_keeps_the_ends_witness :
  corner `sublist_of` corner
  /\ length corner <= length corner
  /\ (length corner <= 2 -> corner = corner)
  /\ (2 <= length corner ->
      2 <= length corner
      /\ head corner = head corner
      /\ last corner = last corner).
Proof.
  apply (optimizePath_keeps_the_ends 5 corner 2 corner).
  vm_compute. reflexivity.
Defined.

End Simplification.

(** ** Rendering *)

Section RenderingFacts.
Import Rendering.

Lemma calls_app is_call trace1 trace2 :
  calls is_call (trace1 ++ trace2)
  = calls is_call trace1 + calls is_call trace2.
Proof. unfold calls. by rewrite List.filter_app, length_app. Qed.

Lemma curves_calls (from1 : list Point) :
  calls is_save (curves from1) = 0
  /\ calls is_restore (curves from1) = 0
  /\ stroke_styles (curves from1) = []
  /\ calls is_curve (curves from1) = length from1 - 1.
Proof.
  induction from1 as [|p rest IH]; [done|].
  destruct rest as [|q rest]; [done|].
  destruct IH as (Hsave & Hrestore & Hstyle & Hcurve).
  change (curves (p :: q :: rest))
    with (quadraticCurveTo (x p) (y p) ((x p + x q) / 2)%float
                           ((y p + y q) / 2)%float :: curves (q :: rest)).
  unfold calls, stroke_styles in *. cbn [List.filter is_save is_restore
    is_curve omap list_omap length]. 
  rewrite Hcurve. repeat split; try done. simpl. lia.
Qed.

Lemma drawStroke_shape :
  forall (points : list Point) (color : string) (width : float)
         (tool : string),
    let trace := drawStroke points color width tool in
    (points = [] -> trace = [])
    /\ (points <> [] ->
        head trace = Some save
        /\ last trace = Some restore
        /\ calls is_save trace = 1
        /\ calls is_restore trace = 1
        /\ stroke_styles trace
           = [ if decide (tool = "eraser"%string)
               then "rgba(0,0,0,1)"%string else color ])
    /\ (3 <= length points -> calls is_curve trace = length points - 1).
Proof.
  intros points color width tool trace. unfold trace.
  split; [by intros ->|]. split.
  - intros Hne. destruct points as [|p0 rest]; [done|].
    unfold drawStroke. split; [done|].
    rewrite !app_assoc, last_snoc. split; [done|]. rewrite <- !app_assoc.
    destruct rest as [|p1 [|p2 rest]]; case_decide;
      try (by repeat split).
    all: destruct (curves_calls (p1 :: p2 :: rest))
           as (Hsave & Hrestore & Hstyle & _);
         unfold stroke_styles in *;
         rewrite !calls_app, !omap_app, Hsave, Hrestore, Hstyle;
         by repeat split.
  - intros Hlen. destruct points as [|p0 [|p1 [|p2 rest]]];
      simpl in Hlen; try lia.
    unfold drawStroke.
    destruct (curves_calls (p1 :: p2 :: rest)) as (_ & _ & _ & Hcurve).
    rewrite !calls_app, Hcurve. unfold calls. case_decide; simpl; lia.
Qed.

(** X16: [drawStroke] does nothing for an empty stroke; otherwise its first
    call is [save], its last is [restore] and there is no other of either,
    so the settings of the context do not leak into the next stroke, and it
    sets the stroke style once: the fixed opaque black of the eraser, or the
    color given.  A stroke of three points or more is drawn with one curve
    less than it has points. *)
Theorem drawStroke_is_bracketed :
  forall (points : list Point) (color : string) (width : float)
         (tool : string),
    let trace := drawStroke points color width tool in
    (points = [] -> trace = [])
    /\ (points <> [] ->
        head trace = Some save
        /\ last trace = Some restore
        /\ calls is_save trace = 1
        /\ calls is_restore trace = 1
        /\ stroke_styles trace
           = [ if decide (tool = "eraser"%string)
               then "rgba(0,0,0,1)"%string else color ])
    /\ (3 <= length points -> calls is_curve trace = length points - 1).
Proof. exact drawStroke_shape. Qed.

Lemma drawStroke_is_bracketed_witness :
  calls is_curve (drawStroke corner "#000000" 4 "brush") = 2
  /\ last (drawStroke corner "#000000" 4 "brush") = Some restore.
Proof.
  split.
  - apply (proj2 (proj2 (drawStroke_is_bracketed corner "#000000" 4 "brush"))).
    simpl. lia.
  - apply (proj1 (proj2 (drawStroke_is_bracketed corner "#000000" 4 "brush"))).
    discriminate.
Defined.

Lemma redrawCanvas_app ops1 ops2 w h :
  redrawCanvas (ops1 ++ ops2) w h
  = redrawCanvas ops1 w h ++ List.tl (redrawCanvas ops2 w h).
Proof. unfold redrawCanvas. simpl. by rewrite flat_map_app. Qed.

Lemma redrawCanvas_balanced ops w h :
  calls is_save (redrawCanvas ops w h)
  = calls is_restore (redrawCanvas ops w h).
Proof.
  unfold redrawCanvas.
  change (clearRect 0 0 w h :: ?l) with ([clearRect 0 0 w h] ++ l).
  rewrite !calls_app. f_equal.
  induction ops as [|o ops IH]; [done|]. cbn [flat_map].
  rewrite !calls_app, IH. f_equal. case_decide; [|done].
  destruct (points o) as [|p0 rest] eqn:Hpoints; [done|].
  pose proof (drawStroke_shape (p0 :: rest) (op_color o) (width o) (tool o))
    as Hshape.
  cbv zeta in Hshape. destruct Hshape as (_ & Hshape & _).
  destruct Hshape as (_ & _ & -> & -> & _); done.
Qed.

(** X17: [redrawCanvas] clears the canvas once, first, and then draws the
    operations in their order, so that redrawing a list with one more
    operation of type ["draw"] makes the same calls and then those of the
    new stroke; every [save] has its [restore].  On a log of the server it
    draws every operation, none being skipped for its type. *)
Theorem redraw_follows_the_log :
  (forall (ops : list Operation) (operation : Operation) (w h : float),
     type operation = "draw"%string ->
     redrawCanvas (ops ++ [operation]) w h
     = redrawCanvas ops w h
       ++ drawStroke (points operation) (op_color operation)
                     (width operation) (tool operation))
  /\ (forall (ops : list Operation) (w h : float),
        head (redrawCanvas ops w h) = Some (clearRect 0 0 w h)
        /\ calls is_save (redrawCanvas ops w h)
           = calls is_restore (redrawCanvas ops w h))
  /\ (forall (events : list Event) (roomId : string) (w h : float),
        let ops := (getOperations roomId (store (run initial events).1)).1 in
        redrawCanvas ops w h
        = clearRect 0 0 w h
          :: flat_map (fun o => drawStroke (points o) (op_color o) (width o)
                                           (tool o)) ops).
Proof.
  split; [|split].
  - intros ops o w h Htype. rewrite redrawCanvas_app. f_equal.
    unfold redrawCanvas. simpl. rewrite decide_True by done.
    by rewrite app_nil_r.
  - intros ops w h. split; [done|apply redrawCanvas_balanced].
  - intros events r w h ops. unfold ops. rewrite getOperations_log.
    destruct logs_initial as [Hwf0 Hsep0].
    destruct (run_logs events initial Hwf0 Hsep0) as [[_ Hwf] _].
    destruct (Hwf r) as [_ Hall]. unfold redrawCanvas. f_equal.
    induction Hall as [|o l [_ Ho] _ IH]; [done|]. simpl.
    by rewrite decide_True, IH.
Qed.

Lemma redraw_follows_the_log_witness :
  redrawCanvas ([] ++ [first_stroke]) 800 600
  = redrawCanvas [] 800 600
    ++ drawStroke (points first_stroke) (op_color first_stroke)
                  (width first_stroke) (tool first_stroke).
Proof.
  apply (proj1 redraw_follows_the_log [] first_stroke 800 600)%float.
  reflexivity.
Defined.

End RenderingFacts.
